(** * Letterbox: a shallow embedding of the batch image processor

    The development follows [letterbox.go] (package [letterbox]) and its
    command [cmd/letterbox/main.go].  Two revisions of [letterbox.go] are in
    the tree: the current one (with padding, the force flag and the
    [aspect]/[padding]/[centered] helpers) and an earlier one.  The current
    revision is embedded in the main body of the file; the functions of the
    earlier revision that differ are kept in [Module Earlier].

    Conventions.
    - Go's [int] is a 64-bit two's complement integer: a [Z] wrapped by
      [Int64.wrap] after every arithmetic operation.
    - Go's [float64] is modelled by exact rationals extended with the IEEE
      special values (see [Module F64]); rounding to 53 bits of mantissa,
      overflow to an infinity and the sign of zero are abstracted.  The
      operations of the code round their exact result to a nearest
      [float64]; integers up to 2^53 are [float64] values, so the rounded
      result of an operation whose exact result x is at most 2^53 lies
      between floor(x) and ceiling(x), and so does its conversion to
      [int].  What is stated of the extents computed in floating point is
      stated between these two bounds, for sizes up to 2^53 and for
      factors that are [F64.representable].
    - A Go function that can panic returns an [outcome].
    - The standard library and [golang.org/x/sync] are not part of the
      repository: [strconv.ParseFloat], [os.Stat], [filepath.Join] and the
      codecs are section variables; the weighted semaphore and the error
      group are modelled by their documented behaviour. *)

From Stdlib Require Import ZArith QArith Qround Qminmax Lia Lqa Bool Ascii String.
From stdpp Require Import base list strings.

Set Default Proof Using "Type".
Local Open Scope Z_scope.

(** ** Errors and panics *)

(** Go [error] values.  Only the classification the program inspects
    ([os.IsNotExist]) and the wrapping done by [fmt.Errorf("...: %w")]
    are kept. *)
Inductive error : Type :=
  | ErrNotExist
  | ErrPermission
  | ErrSyntax (input : string)
  | ErrRange (input : string)
  | ErrCanceled
  | ErrOther (msg : string)
  | Wrapped (msg : string) (cause : error).

(** [os.IsNotExist]: false on [nil], true on the not-exist error. *)
Definition IsNotExist (err : option error) : bool :=
  match err with
  | Some ErrNotExist => true
  | _ => false
  end.

(** Result of running a Go function: it returns, or the goroutine panics
    (index out of range, nil dereference). *)
Inductive outcome (A : Type) : Type :=
  | Ret (a : A)
  | Panic (why : string).
Arguments Ret {A} a.
Arguments Panic {A} why.

(** [outcome] is a monad; a panic aborts the rest of the function. *)
#[global] Instance outcome_ret : MRet outcome := fun A a => Ret a.
#[global] Instance outcome_bind : MBind outcome := fun A B k m =>
  match m with
  | Ret a => k a
  | Panic why => Panic why
  end.

Definition returns {A} (m : outcome A) : bool :=
  match m with Ret _ => true | Panic _ => false end.

(** ** Machine integers *)

Module Int64.
Definition modulus : Z := 2 ^ 64.
Definition half : Z := 2 ^ 63.
Definition min_int : Z := - half.
Definition max_int : Z := half - 1.

(** Two's complement wrap-around of a mathematical integer. *)
Definition wrap (z : Z) : Z := (z + half) mod modulus - half.

Definition in_range (z : Z) : Prop := min_int <= z <= max_int.

Definition add (x y : Z) : Z := wrap (x + y).
Definition sub (x y : Z) : Z := wrap (x - y).
(** Go's [/] truncates toward zero. *)
Definition div (x y : Z) : Z := wrap (Z.quot x y).
End Int64.

(** ** Floating point *)

Module F64.
Inductive t : Type :=
  | Fin (q : Q)
  | PInf
  | NInf
  | NaN.

Definition zero : t := Fin 0.


(** The rationals a [float64] can hold: m * 2^e with a mantissa m of at
    most 53 bits and an exponent e in the range of the format. *)
Definition representable (q : Q) : Prop :=
  exists m e : Z,
    Z.abs m < 2 ^ 53 /\ -1074 <= e <= 971 /\
    (q == inject_Z m * Qpower 2 e)%Q.

(** [float64(n)] for an [int] n. *)
Definition of_int (n : Z) : t := Fin (inject_Z n).

Definition Qzero_b (q : Q) : bool := Qeq_bool q 0.

Definition neg (x : t) : t :=
  match x with
  | Fin q => Fin (- q)
  | PInf => NInf
  | NInf => PInf
  | NaN => NaN
  end.

(** The infinity with the sign of [q] (zero counts as positive). *)
Definition signed_inf (q : Q) : t := if Qle_bool 0 q then PInf else NInf.

Definition add (x y : t) : t :=
  match x, y with
  | NaN, _ | _, NaN => NaN
  | Fin a, Fin b => Fin (a + b)
  | PInf, NInf | NInf, PInf => NaN
  | PInf, _ | _, PInf => PInf
  | NInf, _ | _, NInf => NInf
  end.

Definition mul (x y : t) : t :=
  match x, y with
  | NaN, _ | _, NaN => NaN
  | Fin a, Fin b => Fin (a * b)
  | Fin a, PInf | PInf, Fin a =>
      if Qzero_b a then NaN else signed_inf a
  | Fin a, NInf | NInf, Fin a =>
      if Qzero_b a then NaN else neg (signed_inf a)
  | PInf, PInf | NInf, NInf => PInf
  | PInf, NInf | NInf, PInf => NaN
  end.

(** Division never panics in Go: a zero divisor gives an infinity, or
    NaN for 0/0. *)
Definition div (x y : t) : t :=
  match x, y with
  | NaN, _ | _, NaN => NaN
  | Fin a, Fin b =>
      if Qzero_b b
      then (if Qzero_b a then NaN else signed_inf a)
      else Fin (a / b)
  | Fin _, PInf | Fin _, NInf => Fin 0
  | PInf, Fin b => signed_inf b
  | NInf, Fin b => neg (signed_inf b)
  | _, _ => NaN
  end.

(** [x > y]; false as soon as one side is NaN. *)
Definition gt (x y : t) : bool :=
  match x, y with
  | NaN, _ | _, NaN => false
  | Fin a, Fin b => negb (Qle_bool a b)
  | PInf, PInf => false
  | PInf, _ => true
  | _, NInf => match x with NInf => false | _ => true end
  | _, _ => false
  end.

(** Truncation toward zero of a rational. *)
Definition Qtrunc (q : Q) : Z :=
  if Qle_bool 0 q then Qfloor q else Qceiling q.

Section Conversion.
(** The value of [int(f)] when [f] is not representable in [int]: the
    language leaves it implementation dependent. *)
Variable indefinite : Z.

(** [int(f)] for a [float64] f. *)
Definition to_int (x : t) : Z :=
  match x with
  | Fin q =>
      let z := Qtrunc q in
      if (Int64.min_int <=? z) && (z <=? Int64.max_int) then z
      else indefinite
  | _ => indefinite
  end.
End Conversion.
End F64.

(** ** Package [image]: points and rectangles *)

Record Point : Type := { X : Z; Y : Z }.
Record Rectangle : Type := { Min : Point; Max : Point }.

(** [image.Rect]: the coordinates are swapped where needed so that the
    rectangle is well formed. *)
Definition Rect (x0 y0 x1 y1 : Z) : Rectangle :=
  let '(x0, x1) := if x1 <? x0 then (x1, x0) else (x0, x1) in
  let '(y0, y1) := if y1 <? y0 then (y1, y0) else (y0, y1) in
  {| Min := {| X := x0; Y := y0 |}; Max := {| X := x1; Y := y1 |} |}.

(** [Rectangle.Dx] and [Rectangle.Dy]. *)
Definition Dx (r : Rectangle) : Z := Int64.sub (X (Max r)) (X (Min r)).
Definition Dy (r : Rectangle) : Z := Int64.sub (Y (Max r)) (Y (Min r)).

(** The bounds of a decoded image of the given size, with origin (0, 0). *)
Definition bounds (w h : Z) : Rectangle := Rect 0 0 w h.

(** ** Package [strings] and slices *)

(** [strings.Split(s, sep)] for a separator of one character: the pieces
    of [s] between the separators; never empty. *)
Fixpoint Split (sep : ascii) (s : string) : list string :=
  match s with
  | EmptyString => [EmptyString]
  | String c rest =>
      if Ascii.eqb c sep then EmptyString :: Split sep rest
      else match Split sep rest with
           | [] => [String c EmptyString]
           | p :: ps => String c p :: ps
           end
  end.

(** [xs[i]]: indexing a slice panics out of range. *)
Definition index {A} (xs : list A) (i : nat) : outcome A :=
  match xs !! i with
  | Some x => Ret x
  | None => Panic "index out of range"
  end.

(** ** The processor and its options *)

Record Processor : Type := {
  dir : string;
  white : bool;
  aspect_ratio : F64.t;   (* field [aspect] *)
  quality : Z;
  concurrency : Z;
  padding_frac : F64.t;   (* field [padding] *)
  force : bool
}.

(** The zero value [var v Processor]. *)
Definition zero_Processor : Processor :=
  {| dir := ""; white := false; aspect_ratio := F64.zero; quality := 0;
     concurrency := 0; padding_frac := F64.zero; force := false |}.

(** [type Option]: a function that mutates the processor it is given and
    returns an error; here, the processor after the call and the error. *)
Definition Option : Type := Processor -> outcome (Processor * option error).

Definition set_dir (d : string) (p : Processor) : Processor :=
  {| dir := d; white := white p; aspect_ratio := aspect_ratio p;
     quality := quality p; concurrency := concurrency p;
     padding_frac := padding_frac p; force := force p |}.
Definition set_white (v : bool) (p : Processor) : Processor :=
  {| dir := dir p; white := v; aspect_ratio := aspect_ratio p;
     quality := quality p; concurrency := concurrency p;
     padding_frac := padding_frac p; force := force p |}.
Definition set_aspect (a : F64.t) (p : Processor) : Processor :=
  {| dir := dir p; white := white p; aspect_ratio := a;
     quality := quality p; concurrency := concurrency p;
     padding_frac := padding_frac p; force := force p |}.
Definition set_quality (n : Z) (p : Processor) : Processor :=
  {| dir := dir p; white := white p; aspect_ratio := aspect_ratio p;
     quality := n; concurrency := concurrency p;
     padding_frac := padding_frac p; force := force p |}.
Definition set_concurrency (n : Z) (p : Processor) : Processor :=
  {| dir := dir p; white := white p; aspect_ratio := aspect_ratio p;
     quality := quality p; concurrency := n;
     padding_frac := padding_frac p; force := force p |}.
Definition set_padding (x : F64.t) (p : Processor) : Processor :=
  {| dir := dir p; white := white p; aspect_ratio := aspect_ratio p;
     quality := quality p; concurrency := concurrency p;
     padding_frac := x; force := force p |}.
Definition set_force (v : bool) (p : Processor) : Processor :=
  {| dir := dir p; white := white p; aspect_ratio := aspect_ratio p;
     quality := quality p; concurrency := concurrency p;
     padding_frac := padding_frac p; force := v |}.

(** [WithWhiteBackground]: [p.white = v]. *)
Definition WithWhiteBackground (v : bool) : Option :=
  fun p => Ret (set_white v p, None).

(** [WithForce]: [p.force = v]. *)
Definition WithForce (v : bool) : Option :=
  fun p => Ret (set_force v p, None).

(** [WithPadding]: [p.padding = float64(n) / 100]. *)
Definition WithPadding (n : Z) : Option :=
  fun p => Ret (set_padding (F64.div (F64.of_int n) (F64.of_int 100)) p, None).

(** [WithQuality]: [p.quality = n]. *)
Definition WithQuality (n : Z) : Option :=
  fun p => Ret (set_quality n p, None).

(** [WithConcurrency]: [p.concurrency = n]. *)
Definition WithConcurrency (n : Z) : Option :=
  fun p => Ret (set_concurrency n p, None).

(** [New]: the options are applied in order to a processor with
    concurrency 1 and quality 90; the first error stops the construction. *)
Fixpoint apply_options (options : list Option) (v : Processor)
  : outcome (option Processor * option error) :=
  match options with
  | [] => Ret (Some v, None)
  | o :: rest =>
      r ← o v;
      match r with
      | (_, Some err) => Ret (None, Some err)
      | (v', None) => apply_options rest v'
      end
  end.

Definition New (d : string) (options : list Option)
  : outcome (option Processor * option error) :=
  let v := zero_Processor in
  let v := set_concurrency 1 v in
  let v := set_quality 90 v in
  let v := set_dir d v in
  apply_options options v.

(** ** Parsing the aspect ratio *)

Section Parsing.
(** [strconv.ParseFloat(s, 64)]: the value and the error. *)
Variable ParseFloat : string -> F64.t * option error.

(** [parseAspect]: the two pieces around the colon are parsed and
    divided; a parse error is returned with value 0. *)
Definition parseAspect (s : string) : outcome (F64.t * option error) :=
  let parts := Split ":"%char s in
  p0 ← index parts 0;
  let '(a, err) := ParseFloat p0 in
  match err with
  | Some e => Ret (F64.zero, Some e)
  | None =>
      p1 ← index parts 1;
      let '(b, err) := ParseFloat p1 in
      match err with
      | Some e => Ret (F64.zero, Some e)
      | None => Ret (F64.div a b, None)
      end
  end.

(** [WithAspect]: [n, err := parseAspect(ratio); p.aspect = n;
    return err]. *)
Definition WithAspect (ratio : string) : Option :=
  fun p =>
    r ← parseAspect ratio;
    let '(n, err) := r in
    Ret (set_aspect n p, err).
End Parsing.

(** ** Geometry *)

Section Geometry.
(** See [F64.to_int]. *)
Variable indefinite : Z.

Abbreviation to_int := (F64.to_int indefinite).

(** The two floating point extents computed by [aspect], before the
    conversion to [int]: the wider axis is kept, the other one is
    [w / aspect] or [h * aspect]. *)
Definition aspect_dims (r : Rectangle) (a : F64.t) : F64.t * F64.t :=
  let w := F64.of_int (X (Max r)) in
  let h := F64.of_int (Y (Max r)) in
  if F64.gt w h then (w, F64.div w a) else (F64.mul h a, h).

(** [aspect] returns a rect with aspect ratio applied. *)
Definition aspect (r : Rectangle) (a : F64.t) : Rectangle :=
  let '(w, h) := aspect_dims r a in
  Rect 0 0 (to_int w) (to_int h).

(** [padding] returns a rect with padding applied. *)
Definition padding (r : Rectangle) (pad : F64.t) : Rectangle :=
  let w := F64.of_int (X (Max r)) in
  let h := F64.of_int (Y (Max r)) in
  Rect 0 0 (to_int (F64.add w (F64.mul w pad)))
           (to_int (F64.add h (F64.mul h pad))).

(** [centered] returns a rect with rect s centered in rect d. *)
Definition centered (s d : Rectangle) : Rectangle :=
  let sw := X (Max s) in
  let sh := Y (Max s) in
  let dw := X (Max d) in
  let dh := Y (Max d) in
  Rect (Int64.sub (Int64.div dw 2) (Int64.div sw 2))
       (Int64.sub (Int64.div dh 2) (Int64.div sh 2))
       (Int64.add (Int64.div dw 2) dw)
       (Int64.add (Int64.div dh 2) sh).

(** The dimension step of [process]: canvas [db] and placement [dr]. *)
Definition layout (p : Processor) (sb : Rectangle) : Rectangle * Rectangle :=
  let db := aspect sb (aspect_ratio p) in
  let db := padding db (padding_frac p) in
  let dr := centered sb db in
  (db, dr).
End Geometry.

(** ** The per-item transform *)

(** [os.FileInfo], reduced to the modification time (nanoseconds). *)
Record FileInfo : Type := { ModTime : Z }.

(** What [os.Stat] returns: a file info and no error, or no file info and
    an error. *)
Inductive stat_result : Type :=
  | StatOk (fi : FileInfo)
  | StatErr (e : error).

Definition stat_info (r : stat_result) : option FileInfo :=
  match r with StatOk fi => Some fi | StatErr _ => None end.
Definition stat_err (r : stat_result) : option error :=
  match r with StatOk _ => None | StatErr e => Some e end.

(** A method call on a nil [FileInfo] panics. *)
Definition call_ModTime (fi : option FileInfo) : outcome Z :=
  match fi with
  | Some i => Ret (ModTime i)
  | None => Panic "nil pointer dereference"
  end.

(** [time.Time.After]. *)
Definition After (t u : Z) : bool := u <? t.

(** Lines written with [log.Printf]. *)
Inductive log_line : Type :=
  | LogUnmodified (path : string)
  | LogProcessing (path : string).

Section Transform.
Variable indefinite : Z.
(** [os.Stat]. *)
Variable Stat : string -> stat_result.
(** [filepath.Join]. *)
Variable Join : string -> string -> string.
(** [os.Open]: the error, if any. *)
Variable Open : string -> option error.
(** [image.Decode] on the opened file: the bounds of the image, or the
    error. *)
Variable Decode : string -> Rectangle + error.
(** [image.NewRGBA], the two [draw.Draw] calls and [writeImage]: given
    the processor, the source bounds, the canvas, the placement and the
    destination path. *)
Variable render :
  Processor -> Rectangle -> Rectangle -> Rectangle -> string ->
  outcome (option error).

(** [unmodified] returns true if the output image already exists, and
    is newer than the source image. *)
Definition unmodified (src dst : string) : outcome bool :=
  let di := stat_info (Stat dst) in
  let err := stat_err (Stat dst) in
  if IsNotExist err then Ret false
  else
    let si := stat_info (Stat src) in
    let err := stat_err (Stat src) in
    match err with
    | Some _ => Ret false
    | None =>
        dm ← call_ModTime di;
        sm ← call_ModTime si;
        if After dm sm then Ret true else Ret false
    end.

(** The rest of [process] after the skip test. *)
Definition pipeline (p : Processor) (path dstpath : string)
  : outcome (option error) :=
  match Open path with
  | Some err => Ret (Some (Wrapped "opening" err))
  | None =>
      match Decode path with
      | inr err => Ret (Some (Wrapped "decoding" err))
      | inl sb =>
          let '(db, dr) := layout indefinite p sb in
          render p sb db dr dstpath
      end
  end.

(** [process]: what is logged, and the result. *)
Definition process (p : Processor) (path : string)
  : list log_line * outcome (option error) :=
  let dstpath := Join (dir p) path in
  match unmodified path dstpath with
  | Panic why => ([], Panic why)
  | Ret u =>
      if u && negb (force p)
      then ([LogUnmodified path], Ret None)
      else ([LogProcessing path], pipeline p path dstpath)
  end.

(** The item is skipped: [process] returns nil from its first branch. *)
Definition skipped (p : Processor) (path : string) : Prop :=
  process p path = ([LogUnmodified path], Ret None).

(** The item is processed: [process] runs the pipeline. *)
Definition processed (p : Processor) (path : string) : Prop :=
  process p path =
  ([LogProcessing path], pipeline p path (Join (dir p) path)).
End Transform.

(** ** The earlier revision of [letterbox.go] *)

Module Earlier.
(** The processor has no padding field yet. *)
Record Processor : Type := {
  dir : string;
  white : bool;
  aspect_ratio : F64.t;
  quality : Z;
  concurrency : Z;
  force : bool
}.

Definition Option : Type := Processor -> outcome (Processor * option error).

(** [WithWhiteBackground]: [p.white = v]. *)
Definition WithWhiteBackground (v : bool) : Option :=
  fun p =>
    Ret ({| dir := dir p; white := v; aspect_ratio := aspect_ratio p;
            quality := quality p; concurrency := concurrency p;
            force := force p |}, None).

(** [WithForce]: the body assigns [p.white = v]. *)
Definition WithForce (v : bool) : Option :=
  fun p =>
    Ret ({| dir := dir p; white := v; aspect_ratio := aspect_ratio p;
            quality := quality p; concurrency := concurrency p;
            force := force p |}, None).

Section Parsing.
Variable ParseFloat : string -> F64.t * option error.

(** [parseAspect]: the two numbers are ordered so that [a] is the
    larger one, and [b / a] is returned. *)
Definition parseAspect (s : string) : outcome (F64.t * option error) :=
  let parts := Split ":"%char s in
  p0 ← index parts 0;
  let '(a, err) := ParseFloat p0 in
  match err with
  | Some e => Ret (F64.zero, Some e)
  | None =>
      p1 ← index parts 1;
      let '(b, err) := ParseFloat p1 in
      match err with
      | Some e => Ret (F64.zero, Some e)
      | None =>
          let '(a, b) := if F64.gt b a then (b, a) else (a, b) in
          Ret (F64.div b a, None)
      end
  end.
End Parsing.

Section Geometry.
Variable indefinite : Z.

(** The dimension step of [process] in the earlier revision: the canvas
    has the width of the source and the height [int(float64(dw) *
    p.aspect)]; the placement is computed in line by the expression that
    became [centered]. *)
Definition layout (p : Processor) (sb : Rectangle) : Rectangle * Rectangle :=
  let sw := X (Max sb) in
  let sh := Y (Max sb) in
  let dw := sw in
  let dh := F64.to_int indefinite (F64.mul (F64.of_int dw) (aspect_ratio p)) in
  let db := Rect 0 0 dw dh in
  let dr := Rect (Int64.sub (Int64.div dw 2) (Int64.div sw 2))
                 (Int64.sub (Int64.div dh 2) (Int64.div sh 2))
                 (Int64.add (Int64.div dw 2) dw)
                 (Int64.add (Int64.div dh 2) sh) in
  (db, dr).
End Geometry.
End Earlier.

(** ** [Processor.Process]: the coordinator

    The goroutines started by [errg.Go] interleave with the loop of
    [Process]; the program is a transition system whose steps are the
    synchronisation points of the weighted semaphore and of the error
    group. *)

(** Where a goroutine started by [errg.Go] is: created; inside
    [p.process]; back from it with the semaphore unit still held (the
    deferred [sem.Release] has not run); unit released and result not yet
    handed to the group; finished. *)
Inductive phase : Type :=
  | Spawned
  | Running
  | Returned (r : option error)
  | Released (r : option error)
  | Done.

Record task : Type := { item : string; ph : phase }.

(** Where [Process] itself is: in the [for] loop; in [errg.Wait]; back. *)
Inductive pc : Type :=
  | Looping
  | Waiting
  | Exited (r : option error).

Record state : Type := {
  size : Z;                  (* capacity given to [semaphore.NewWeighted] *)
  cur : Z;                   (* units held *)
  pending : list string;     (* items the loop has not reached *)
  tasks : list task;         (* goroutines, in order of admission *)
  wg : Z;                    (* the wait group counter of the group *)
  err : option error;        (* the error kept by [errOnce] *)
  main : pc;
  ctx_done : bool;
  crashed : bool             (* some goroutine panicked *)
}.

Inductive event : Type :=
  | Cancel                   (* the context is cancelled *)
  | Admit                    (* [sem.Acquire] succeeds, then [errg.Go] *)
  | AcquireFail              (* [sem.Acquire] returns [ctx.Err()] *)
  | LoopExit                 (* the range is exhausted *)
  | Start (i : nat)          (* goroutine i enters [p.process] *)
  | Return (i : nat)         (* [p.process] returns in goroutine i *)
  | Release (i : nat)        (* the deferred [sem.Release(1)] *)
  | Finish (i : nat)         (* [errOnce], then [wg.Done] *)
  | WaitReturn.              (* [errg.Wait] returns *)

Definition set_task (i : nat) (t : task) (s : state) : state :=
  {| size := size s; cur := cur s; pending := pending s;
     tasks := <[i := t]> (tasks s); wg := wg s; err := err s;
     main := main s; ctx_done := ctx_done s; crashed := crashed s |}.

Section Coordinator.
(** The result of [p.process] on an item. *)
Variable transform : string -> outcome (option error).

Definition init (n : Z) (images : list string) : state :=
  {| size := n; cur := 0; pending := images; tasks := []; wg := 0;
     err := None; main := Looping; ctx_done := false; crashed := false |}.

Definition step (s : state) (e : event) : option state :=
  if crashed s then None else
  match e with
  | Cancel =>
      Some {| size := size s; cur := cur s; pending := pending s;
              tasks := tasks s; wg := wg s; err := err s; main := main s;
              ctx_done := true; crashed := false |}
  | Admit =>
      match main s, pending s with
      | Looping, path :: rest =>
          if 1 <=? size s - cur s then
            Some {| size := size s; cur := cur s + 1; pending := rest;
                    tasks := tasks s ++ [{| item := path; ph := Spawned |}];
                    wg := wg s + 1; err := err s; main := Looping;
                    ctx_done := ctx_done s; crashed := false |}
          else None
      | _, _ => None
      end
  | AcquireFail =>
      match main s, pending s with
      | Looping, _ :: _ =>
          if ctx_done s then
            Some {| size := size s; cur := cur s; pending := pending s;
                    tasks := tasks s; wg := wg s; err := err s;
                    main := Exited (Some ErrCanceled);
                    ctx_done := true; crashed := false |}
          else None
      | _, _ => None
      end
  | LoopExit =>
      match main s, pending s with
      | Looping, [] =>
          Some {| size := size s; cur := cur s; pending := [];
                  tasks := tasks s; wg := wg s; err := err s;
                  main := Waiting; ctx_done := ctx_done s;
                  crashed := false |}
      | _, _ => None
      end
  | Start i =>
      match tasks s !! i with
      | Some {| item := path; ph := Spawned |} =>
          Some (set_task i {| item := path; ph := Running |} s)
      | _ => None
      end
  | Return i =>
      match tasks s !! i with
      | Some {| item := path; ph := Running |} =>
          match transform path with
          | Ret r => Some (set_task i {| item := path; ph := Returned r |} s)
          | Panic _ =>
              Some {| size := size s; cur := cur s; pending := pending s;
                      tasks := tasks s; wg := wg s; err := err s;
                      main := main s; ctx_done := ctx_done s;
                      crashed := true |}
          end
      | _ => None
      end
  | Release i =>
      match tasks s !! i with
      | Some {| item := path; ph := Returned r |} =>
          Some {| size := size s; cur := cur s - 1; pending := pending s;
                  tasks := <[i := {| item := path; ph := Released r |}]>
                             (tasks s);
                  wg := wg s; err := err s; main := main s;
                  ctx_done := ctx_done s; crashed := false |}
      | _ => None
      end
  | Finish i =>
      match tasks s !! i with
      | Some {| item := path; ph := Released r |} =>
          Some {| size := size s; cur := cur s; pending := pending s;
                  tasks := <[i := {| item := path; ph := Done |}]> (tasks s);
                  wg := wg s - 1;
                  err := match err s with
                         | Some e => Some e
                         | None => r
                         end;
                  main := main s; ctx_done := ctx_done s;
                  crashed := false |}
      | _ => None
      end
  | WaitReturn =>
      match main s with
      | Waiting =>
          if wg s =? 0 then
            Some {| size := size s; cur := cur s; pending := pending s;
                    tasks := tasks s; wg := wg s; err := err s;
                    main := Exited (err s); ctx_done := ctx_done s;
                    crashed := false |}
          else None
      | _ => None
      end
  end.

(** A schedule is a list of events; it is run from a state as long as
    each event is enabled. *)
Fixpoint run (evs : list event) (s : state) : option state :=
  match evs with
  | [] => Some s
  | e :: rest =>
      match step s e with
      | Some s' => run rest s'
      | None => None
      end
  end.
End Coordinator.

(** Number of goroutines of a list that satisfy a test. *)
Fixpoint count (f : task -> bool) (l : list task) : Z :=
  match l with
  | [] => 0
  | t :: l' => (if f t then 1 else 0) + count f l'
  end.

(** Goroutines inside [p.process]. *)
Definition is_running (t : task) : bool :=
  match ph t with Running => true | _ => false end.
Definition running (s : state) : Z := count is_running (tasks s).

(** Goroutines that hold a semaphore unit: admitted and not yet past the
    deferred release. *)
Definition is_holding (t : task) : bool :=
  match ph t with Spawned | Running | Returned _ => true | _ => false end.
Definition holders (s : state) : Z := count is_holding (tasks s).

(** Goroutines the wait group still counts. *)
Definition is_live (t : task) : bool :=
  match ph t with Done => false | _ => true end.

(** Goroutines that have entered [p.process]. *)
Definition is_started (t : task) : bool :=
  match ph t with Spawned => false | _ => true end.

Section Process.
Variable indefinite : Z.
Variable Stat : string -> stat_result.
Variable Join : string -> string -> string.
Variable Open : string -> option error.
Variable Decode : string -> Rectangle + error.
Variable render :
  Processor -> Rectangle -> Rectangle -> Rectangle -> string ->
  outcome (option error).

(** The function each goroutine of [Process] runs. *)
Definition process_result (p : Processor) (path : string)
  : outcome (option error) :=
  snd (process indefinite Stat Join Open Decode render p path).

(** [Process]: the state reached by a schedule, from the state in which
    the semaphore has been created with capacity [p.concurrency]. *)
Definition Process (p : Processor) (images : list string)
    (schedule : list event) : option state :=
  run (process_result p) schedule (init (concurrency p) images).
End Process.

(** ** A decimal instance of [strconv.ParseFloat]

    The literals used in the examples are plain decimals: an optional
    sign, digits, and an optional fraction.  On these, the function below
    is what [strconv.ParseFloat] computes (up to rounding); anything else
    is rejected here with a syntax error. *)

Definition digit_val (c : ascii) : option Z :=
  let n := Z.of_nat (nat_of_ascii c) in
  if (48 <=? n) && (n <=? 57) then Some (n - 48) else None.

(** Value of a digit string read after [acc]; [None] on a non-digit. *)
Fixpoint digits_val (s : string) (acc : Z) : option Z :=
  match s with
  | EmptyString => Some acc
  | String c rest =>
      match digit_val c with
      | Some d => digits_val rest (10 * acc + d)
      | None => None
      end
  end.

Definition unsigned_decimal (s : string) : option Q :=
  match Split "."%char s with
  | [i] =>
      if String.eqb i "" then None
      else z ← digits_val i 0; Some (inject_Z z)
  | [i; f] =>
      if String.eqb i "" && String.eqb f "" then None
      else
        zi ← digits_val i 0;
        zf ← digits_val f 0;
        Some (inject_Z zi +
              Qmake zf (Pos.pow 10 (Pos.of_nat (String.length f)))
                * (if String.eqb f "" then 0 else 1))%Q
  | _ => None
  end.

Definition decimal (s : string) : F64.t * option error :=
  let r :=
    match s with
    | String "-" rest => q ← unsigned_decimal rest; Some (- q)%Q
    | String "+" rest => unsigned_decimal rest
    | _ => unsigned_decimal s
    end in
  match r with
  | Some q => (F64.Fin q, None)
  | None => (F64.zero, Some (ErrSyntax s))
  end.

(** [strings.ContainsRune]. *)
Fixpoint contains_char (c : ascii) (s : string) : bool :=
  match s with
  | EmptyString => false
  | String d rest => Ascii.eqb d c || contains_char c rest
  end.

(** ** The command [cmd/letterbox]: listing the images *)

(** [filepath.Ext]: the loop runs from the end of the path; it stops with
    the empty string at a path separator and with the suffix read so far
    at a dot.  [rev_path] is what is still to be read, last character
    first. *)
Fixpoint ext_scan (rev_path : list ascii) (suffix : string) : string :=
  match rev_path with
  | [] => ""
  | c :: more =>
      if Ascii.eqb c "/" then ""
      else if Ascii.eqb c "." then String c suffix
      else ext_scan more (String c suffix)
  end.

Definition Ext (path : string) : string :=
  ext_scan (rev (list_ascii_of_string path)) "".

(** The extensions [listImages] accepts. *)
Definition image_ext (ext : string) : bool :=
  String.eqb ext ".jpg" || String.eqb ext ".jpeg" || String.eqb ext ".tif".

Section Command.
(** [ioutil.ReadDir]: the names of the entries of a directory, or the
    error. *)
Variable ReadDir : string -> list string + error.
Variable Join : string -> string -> string.
(** [strings.ToLower]. *)
Variable ToLower : string -> string.

(** [listImages] returns the images in the given directory. *)
Definition listImages (d : string) : list string * option error :=
  match ReadDir d with
  | inr e => ([], Some e)
  | inl files =>
      (fold_left
         (fun images name =>
            let ext := ToLower (Ext name) in
            if image_ext ext then images ++ [Join d name] else images)
         files [],
       None)
  end.
End Command.

(** [strings.ToLower] on ASCII letters; the other bytes are kept. *)
Definition lower_ascii (c : ascii) : ascii :=
  let n := nat_of_ascii c in
  if (65 <=? n)%nat && (n <=? 90)%nat then ascii_of_nat (n + 32) else c.

Fixpoint lower_string (s : string) : string :=
  match s with
  | EmptyString => EmptyString
  | String c rest => String (lower_ascii c) (lower_string rest)
  end.

(** ** The options as data *)

(** One constructor for each option function of the package. *)
Inductive setting : Type :=
  | SetWhite (v : bool)
  | SetForce (v : bool)
  | SetPadding (n : Z)
  | SetQuality (n : Z)
  | SetConcurrency (n : Z)
  | SetAspect (ratio : string).

Definition option_of (ParseFloat : string -> F64.t * option error)
    (x : setting) : Option :=
  match x with
  | SetWhite v => WithWhiteBackground v
  | SetForce v => WithForce v
  | SetPadding n => WithPadding n
  | SetQuality n => WithQuality n
  | SetConcurrency n => WithConcurrency n
  | SetAspect ratio => WithAspect ParseFloat ratio
  end.

(** The value picked from the last setting of a kind, or the default. *)
Definition last_of {A} (pick : setting -> option A) (xs : list setting)
    (default : A) : A :=
  fold_left (fun acc x => match pick x with Some a => a | None => acc end)
    xs default.

Definition pick_white (x : setting) : option bool :=
  match x with SetWhite v => Some v | _ => None end.
Definition pick_force (x : setting) : option bool :=
  match x with SetForce v => Some v | _ => None end.
Definition pick_padding (x : setting) : option F64.t :=
  match x with
  | SetPadding n => Some (F64.div (F64.of_int n) (F64.of_int 100))
  | _ => None
  end.
Definition pick_quality (x : setting) : option Z :=
  match x with SetQuality n => Some n | _ => None end.
Definition pick_concurrency (x : setting) : option Z :=
  match x with SetConcurrency n => Some n | _ => None end.
Definition pick_ratio (x : setting) : option (option string) :=
  match x with SetAspect ratio => Some (Some ratio) | _ => None end.

(** What is known of the aspect field after some settings: it is the
    value parsed from the last ratio, or the initial value. *)
Definition aspect_from (ParseFloat : string -> F64.t * option error)
    (initial : F64.t) (last : option string) (a : F64.t) : Prop :=
  match last with
  | Some ratio => parseAspect ParseFloat ratio = Ret (a, None)
  | None => a = initial
  end.

(** ** Schedules of the coordinator *)

(** The schedule that runs the items one at a time: item number [k] is
    admitted, runs, releases its unit and finishes before the next one is
    admitted; then the loop ends and [errg.Wait] returns. *)
Fixpoint sequential_from (k : nat) (count : nat) : list event :=
  match count with
  | O => [LoopExit; WaitReturn]
  | S count' =>
      [Admit; Start k; Return k; Release k; Finish k]
        ++ sequential_from (S k) count'
  end.

Definition sequential (images : list string) : list event :=
  sequential_from 0 (length images).

(** The error of the first item of the list whose transform fails. *)
Fixpoint first_failure (transform : string -> outcome (option error))
    (images : list string) : option error :=
  match images with
  | [] => None
  | path :: rest =>
      match transform path with
      | Ret (Some e) => Some e
      | _ => first_failure transform rest
      end
  end.

(** The state between two items of the sequential schedule: the loop is
    at the next item, every goroutine admitted so far has finished. *)
Definition between_items (n : Z) (finished : list string)
    (rest : list string) (e : option error) : state :=
  {| size := n; cur := 0; pending := rest;
     tasks := map (fun path => {| item := path; ph := Done |}) finished;
     wg := 0; err := e; main := Looping; ctx_done := false;
     crashed := false |}.

(** A loop that can admit nothing: the list is empty or the semaphore has
    no capacity. *)
Definition idle (n : Z) (images : list string) (s : state) : Prop :=
  size s = n /\ tasks s = [] /\ cur s = 0 /\ wg s = 0 /\ err s = None /\
  pending s = images /\
  (main s = Waiting -> images = []) /\
  (forall r, main s = Exited r ->
     (images = [] /\ r = None) \/
     (images <> [] /\ r = Some ErrCanceled /\ ctx_done s = true)).

(** What the goroutines know of the results: a goroutine back from
    [p.process] carries the result of the transform on its item; a
    finished goroutine with an error has had it recorded, or another
    before it; a recorded error is the result of a finished goroutine. *)
Definition task_result_ok (transform : string -> outcome (option error))
    (recorded : option error) (t : task) : Prop :=
  match ph t with
  | Spawned | Running => True
  | Returned r | Released r => transform (item t) = Ret r
  | Done =>
      exists r, transform (item t) = Ret r /\
                (r <> None -> recorded <> None)
  end.

Definition result_inv (transform : string -> outcome (option error))
    (s : state) : Prop :=
  Forall (task_result_ok transform (err s)) (tasks s) /\
  (forall e, err s = Some e ->
     exists t, In t (tasks s) /\ ph t = Done /\
               transform (item t) = Ret (Some e)).

(** ** Vocabulary of the statements *)

(** A processor of the earlier revision, as [New] leaves it before the
    options run. *)
Definition earlier_default (d : string) : Earlier.Processor :=
  {| Earlier.dir := d; Earlier.white := false;
     Earlier.aspect_ratio := F64.zero; Earlier.quality := 90;
     Earlier.concurrency := 1; Earlier.force := false |}.


(** The ratio string "a:b" built from two literals. *)
Definition ratio_string (sa sb : string) : string :=
  String.append sa (String ":" sb).

(** The canvas is at least as wide and as high as the source (both have
    their origin at (0, 0)). *)
Definition canvas_contains (src canvas : Rectangle) : Prop :=
  X (Max src) <= X (Max canvas) /\ Y (Max src) <= Y (Max canvas).

(** The extent [aspect] computes for the axis it does not keep. *)
Definition derived_extent (w h : Z) (f : Q) : Q :=
  if h <? w then (inject_Z w / f)%Q else (inject_Z h * f)%Q.


(** A file system in which the output "processed/a.jpg" cannot be
    examined (permission denied on its directory) and every other path is
    a file modified at time 1. *)
Definition denied_fs (path : string) : stat_result :=
  if String.eqb path "processed/a.jpg" then StatErr ErrPermission
  else StatOk {| ModTime := 1 |}.

(** A file system with a source modified at time 1 and an output
    modified at time 2. *)
Definition fresh_fs (path : string) : stat_result :=
  if String.eqb path "processed/a.jpg" then StatOk {| ModTime := 2 |}
  else StatOk {| ModTime := 1 |}.

(** An empty output directory: nothing exists under "processed/", every
    other path is a file modified at time 1. *)
Definition empty_fs (path : string) : stat_result :=
  if String.prefix "processed/" path then StatErr ErrNotExist
  else StatOk {| ModTime := 1 |}.

(** [filepath.Join] on two clean relative paths, the first of which is a
    named directory (neither empty nor "."). *)
Definition join_slash (d path : string) : string :=
  String.append d (String "/" path).

(** Collaborators for the examples: every file opens and decodes to an
    image of 1000 x 500 pixels, and the output is written. *)
Definition open_ok (path : string) : option error := None.
Definition decode_1000x500 (path : string) : Rectangle + error :=
  inl (bounds 1000 500).
Definition render_ok (p : Processor) (sb db dr : Rectangle) (dst : string)
  : outcome (option error) := Ret None.

(** The fail-fast reading of admission: once an error has been recorded
    by the group, no goroutine admitted later ever enters [p.process]. *)
Definition fail_fast (transform : string -> outcome (option error))
    (n : Z) (images : list string) : Prop :=
  forall schedule1 schedule2 s1 s2,
    run transform schedule1 (init n images) = Some s1 ->
    err s1 <> None ->
    run transform schedule2 s1 = Some s2 ->
    forall i t, tasks s2 !! i = Some t -> is_started t = true ->
                (i < length (tasks s1))%nat.

(** A processor as the command builds it, with the given concurrency. *)
Definition cli_processor (n : Z) : Processor :=
  {| dir := "processed"; white := false; aspect_ratio := F64.Fin (16 / 9);
     quality := 90; concurrency := n; padding_frac := F64.Fin 0;
     force := false |}.

(** The [float64] nearest to 16/9, which is what the division of the two
    numbers of "16:9" gives in the code: 2001599834386887 * 2^-50. *)
Definition binary64_16_9 : Q := 2001599834386887 # 1125899906842624.

(** A processor holding that factor, without padding. *)
Definition wide_processor : Processor :=
  {| dir := "processed"; white := false;
     aspect_ratio := F64.Fin binary64_16_9;
     quality := 90; concurrency := 8; padding_frac := F64.Fin 0;
     force := false |}.

(** Collaborators for the examples: "a.jpg" is not an image. *)
Definition decode_a_corrupt (path : string) : Rectangle + error :=
  if String.eqb path "a.jpg" then inr (ErrOther "image: unknown format")
  else inl (bounds 1000 500).

(** The invariant of the semaphore: every unit held belongs to a goroutine
    between admission and its deferred release, and the capacity is
    respected. *)
Definition sem_inv (n : Z) (s : state) : Prop :=
  size s = n /\ cur s = holders s /\ cur s <= n.

(** The invariant of the loop and of the group: items are admitted in
    the order of the list and none is dropped; the wait group counts the
    goroutines that are not finished; [errg.Wait] is entered after the
    last item and returns the recorded error when the counter is zero. *)
Definition loop_inv (images : list string) (s : state) : Prop :=
  map item (tasks s) ++ pending s = images /\
  wg s = count is_live (tasks s) /\
  (main s = Waiting -> pending s = []) /\
  (forall r, main s = Exited r -> ctx_done s = false ->
             pending s = [] /\ wg s = 0 /\ r = err s).

(** * Properties *)

(** ** Splitting *)

Lemma Split_nonempty sep s : Split sep s <> [].
Proof.
  induction s as [|c s IH]; simpl; [discriminate|].
  destruct (Ascii.eqb c sep); [discriminate|].
  destruct (Split sep s); discriminate.
Qed.

Lemma Split_without_sep sep s :
  contains_char sep s = false -> Split sep s = [s].
Proof.
  induction s as [|c s IH]; simpl; [reflexivity|].
  intros H. apply orb_false_iff in H as [Hc Hs].
  rewrite Hc, (IH Hs). reflexivity.
Qed.

Lemma Split_at_sep sep sa sb :
  contains_char sep sa = false ->
  Split sep (String.append sa (String sep sb)) = sa :: Split sep sb.
Proof.
  induction sa as [|c sa IH]; simpl.
  - intros _. rewrite Ascii.eqb_refl. reflexivity.
  - intros H. apply orb_false_iff in H as [Hc Hs].
    rewrite Hc, (IH Hs). reflexivity.
Qed.

Lemma Split_pair sep sa sb :
  contains_char sep sa = false -> contains_char sep sb = false ->
  Split sep (String.append sa (String sep sb)) = [sa; sb].
Proof.
  intros Ha Hb. rewrite (Split_at_sep _ _ _ Ha), (Split_without_sep _ _ Hb).
  reflexivity.
Qed.

(** ** Options *)

Section OptionFrames.
Variables (v : bool) (p : Processor).

Lemma WithForce_sets_force :
  exists p', WithForce v p = Ret (p', None) /\ force p' = v /\
    white p' = white p /\ dir p' = dir p /\
    aspect_ratio p' = aspect_ratio p /\ quality p' = quality p /\
    concurrency p' = concurrency p /\ padding_frac p' = padding_frac p.
Proof. eexists; split; [reflexivity|]; simpl; repeat split. Qed.

Lemma WithWhiteBackground_sets_white :
  exists p', WithWhiteBackground v p = Ret (p', None) /\ white p' = v /\
    force p' = force p /\ dir p' = dir p /\
    aspect_ratio p' = aspect_ratio p /\ quality p' = quality p /\
    concurrency p' = concurrency p /\ padding_frac p' = padding_frac p.
Proof. eexists; split; [reflexivity|]; simpl; repeat split. Qed.
End OptionFrames.

(** In the earlier revision [WithForce v] and [WithWhiteBackground v] are
    the same function. *)
Lemma Earlier_WithForce_is_WithWhiteBackground v :
  Earlier.WithForce v = Earlier.WithWhiteBackground v.
Proof. reflexivity. Qed.

(** C8 (earlier revision of [letterbox.go]): [WithForce true] applied to a
    processor with [white = false] and [force = false] returns a processor
    with [white = true] and [force = false]: the option writes the
    background field and leaves the force field as it was. *)
Theorem Earlier_WithForce_writes_white :
  exists p',
    Earlier.WithForce true (earlier_default "processed") = Ret (p', None) /\
    Earlier.white p' = true /\ Earlier.force p' = false.
Proof. eexists; split; [reflexivity|]; split; reflexivity. Qed.

(** ** Parsing the aspect ratio *)

Section ParseAspect.
Variable ParseFloat : string -> F64.t * option error.

(** A string without a colon whose only piece parses as a number makes
    [parts[1]] panic, in both revisions. *)
Lemma parseAspect_single_number s a :
  contains_char ":" s = false -> ParseFloat s = (a, None) ->
  parseAspect ParseFloat s = Panic "index out of range" /\
  Earlier.parseAspect ParseFloat s = Panic "index out of range".
Proof.
  intros Hs Ha. unfold parseAspect, Earlier.parseAspect.
  rewrite (Split_without_sep _ _ Hs). simpl. rewrite Ha. split; reflexivity.
Qed.

(** When the first piece does not parse, the error is returned before
    the second piece is looked at. *)
Lemma parseAspect_first_error s e a :
  ParseFloat (hd "" (Split ":" s)) = (a, Some e) ->
  parseAspect ParseFloat s = Ret (F64.zero, Some e).
Proof.
  intros Ha. unfold parseAspect.
  pose proof (Split_nonempty ":" s) as Hne.
  destruct (Split ":" s) as [|p0 ps]; [congruence|].
  simpl in *. rewrite Ha. reflexivity.
Qed.
End ParseAspect.

(** C9: the string "16" has no colon and its only piece is a number;
    [parseAspect] indexes [parts[1]] of a one-element slice and panics, in
    both revisions, and so do [WithAspect] and [New] with that option: no
    error value is returned. *)
Theorem parseAspect_missing_colon_panics :
  parseAspect decimal "16" = Panic "index out of range" /\
  Earlier.parseAspect decimal "16" = Panic "index out of range" /\
  WithAspect decimal "16" zero_Processor = Panic "index out of range" /\
  New "processed" [WithAspect decimal "16"] = Panic "index out of range".
Proof. repeat split; reflexivity. Qed.

(** Division of two finite numbers with a positive divisor. *)
Lemma F64_div_pos a b :
  (0 < b)%Q -> F64.div (F64.Fin a) (F64.Fin b) = F64.Fin (a / b).
Proof.
  intros Hb. unfold F64.div, F64.Qzero_b.
  destruct (Qeq_bool b 0) eqn:E; [|reflexivity].
  apply Qeq_bool_eq in E. rewrite E in Hb. exfalso.
  exact (Qlt_irrefl 0 Hb).
Qed.

Lemma F64_gt_Fin a b : F64.gt (F64.Fin a) (F64.Fin b) = true <-> (b < a)%Q.
Proof.
  unfold F64.gt. rewrite negb_true_iff. split.
  - intros E. apply Qnot_le_lt. intros H.
    apply Qle_bool_iff in H. congruence.
  - intros H. destruct (Qle_bool a b) eqn:E; [|reflexivity].
    apply Qle_bool_iff in E. exfalso. exact (Qlt_not_le _ _ H E).
Qed.

Section ParseRatio.
Variable ParseFloat : string -> F64.t * option error.
Variables (sa sb : string) (a b : Q).
Hypothesis sa_plain : contains_char ":" sa = false.
Hypothesis sb_plain : contains_char ":" sb = false.
Hypothesis sa_value : ParseFloat sa = (F64.Fin a, None).
Hypothesis sb_value : ParseFloat sb = (F64.Fin b, None).
Hypothesis a_pos : (0 < a)%Q.
Hypothesis b_pos : (0 < b)%Q.


End ParseRatio.




(** ** Integers and conversions *)

Lemma wrap_in_range z : Int64.in_range z -> Int64.wrap z = z.
Proof.
  unfold Int64.in_range, Int64.wrap, Int64.min_int, Int64.max_int.
  intros H. rewrite Z.mod_small; unfold Int64.modulus, Int64.half in *; lia.
Qed.

Lemma Qtrunc_nonneg q : (0 <= q)%Q -> F64.Qtrunc q = Qfloor q.
Proof.
  intros H. unfold F64.Qtrunc.
  apply Qle_bool_iff in H. rewrite H. reflexivity.
Qed.

Lemma Qfloor_nonneg q : (0 <= q)%Q -> 0 <= Qfloor q.
Proof. intros H. apply Qfloor_resp_le in H. exact H. Qed.

Lemma to_int_nonneg indefinite q :
  (0 <= q)%Q -> (q <= inject_Z Int64.max_int)%Q ->
  F64.to_int indefinite (F64.Fin q) = Qfloor q.
Proof.
  intros H0 H1. unfold F64.to_int. rewrite (Qtrunc_nonneg _ H0).
  pose proof (Qfloor_nonneg _ H0) as Hlo.
  apply Qfloor_resp_le in H1. rewrite Qfloor_Z in H1.
  replace (Int64.min_int <=? Qfloor q) with true
    by (symmetry; apply Z.leb_le; unfold Int64.min_int, Int64.half; lia).
  replace (Qfloor q <=? Int64.max_int) with true
    by (symmetry; apply Z.leb_le; exact H1).
  reflexivity.
Qed.

Lemma to_int_of_int indefinite z :
  0 <= z <= Int64.max_int -> F64.to_int indefinite (F64.of_int z) = z.
Proof.
  intros [H0 H1]. unfold F64.of_int.
  rewrite to_int_nonneg, Qfloor_Z; [reflexivity| |].
  - change (inject_Z 0 <= inject_Z z)%Q. rewrite <- Zle_Qle. exact H0.
  - rewrite <- Zle_Qle. exact H1.
Qed.

Lemma Rect_ordered x0 y0 x1 y1 :
  x0 <= x1 -> y0 <= y1 ->
  Rect x0 y0 x1 y1 =
  {| Min := {| X := x0; Y := y0 |}; Max := {| X := x1; Y := y1 |} |}.
Proof.
  intros Hx Hy. unfold Rect.
  destruct (x1 <? x0) eqn:Ex; [apply Z.ltb_lt in Ex; lia|].
  destruct (y1 <? y0) eqn:Ey; [apply Z.ltb_lt in Ey; lia|].
  reflexivity.
Qed.

Lemma Rect_origin a b :
  0 <= a -> 0 <= b ->
  Rect 0 0 a b =
  {| Min := {| X := 0; Y := 0 |}; Max := {| X := a; Y := b |} |}.
Proof. apply Rect_ordered. Qed.

Lemma F64_gt_of_int w h :
  F64.gt (F64.of_int w) (F64.of_int h) = (h <? w).
Proof.
  unfold F64.of_int. destruct (h <? w) eqn:E.
  - apply F64_gt_Fin. rewrite <- Zlt_Qlt. apply Z.ltb_lt. exact E.
  - destruct (F64.gt _ _) eqn:G; [|reflexivity].
    apply F64_gt_Fin in G. rewrite <- Zlt_Qlt in G.
    apply Z.ltb_lt in G. congruence.
Qed.

(** ** The canvas computed by [aspect] *)

Section AspectCanvas.
Variable indefinite : Z.
Variables (w h : Z) (f : Q).
Hypothesis w_range : 0 < w <= Int64.max_int.
Hypothesis h_range : 0 < h <= Int64.max_int.
Hypothesis f_pos : (0 < f)%Q.

Lemma bounds_Max : Max (bounds w h) = {| X := w; Y := h |}.
Proof using w_range h_range.
  unfold bounds. rewrite Rect_origin by lia. reflexivity.
Qed.

Lemma aspect_dims_landscape :
  h < w ->
  aspect_dims (bounds w h) (F64.Fin f) =
  (F64.of_int w, F64.Fin (inject_Z w / f)).
Proof using w_range h_range f_pos.
  intros Hlt. unfold aspect_dims. rewrite bounds_Max. cbn [X Y].
  rewrite F64_gt_of_int. apply Z.ltb_lt in Hlt. rewrite Hlt.
  unfold F64.of_int at 2. rewrite (F64_div_pos _ _ f_pos). reflexivity.
Qed.

Lemma aspect_dims_portrait :
  w <= h ->
  aspect_dims (bounds w h) (F64.Fin f) =
  (F64.Fin (inject_Z h * f), F64.of_int h).
Proof using w_range h_range.
  intros Hle. unfold aspect_dims. rewrite bounds_Max. cbn [X Y].
  rewrite F64_gt_of_int.
  destruct (h <? w) eqn:E; [apply Z.ltb_lt in E; lia|]. reflexivity.
Qed.

Lemma w_over_f_nonneg : (0 <= inject_Z w / f)%Q.
Proof using w_range f_pos.
  apply Qle_shift_div_l; [exact f_pos|].
  assert (0 <= inject_Z w)%Q
    by (change (inject_Z 0 <= inject_Z w)%Q; rewrite <- Zle_Qle; lia).
  lra.
Qed.

Lemma h_times_f_nonneg : (0 <= inject_Z h * f)%Q.
Proof using h_range f_pos.
  assert (0 <= inject_Z h)%Q
    by (change (inject_Z 0 <= inject_Z h)%Q; rewrite <- Zle_Qle; lia).
  apply Qmult_le_0_compat; [assumption|]. apply Qlt_le_weak. exact f_pos.
Qed.

(** An integer is below the floor of a rational exactly when it is below
    the rational. *)
Lemma le_Qfloor_iff (n : Z) (q : Q) : n <= Qfloor q <-> (inject_Z n <= q)%Q.
Proof.
  split.
  - intros H. apply Qle_trans with (inject_Z (Qfloor q)).
    + rewrite <- Zle_Qle. exact H.
    + apply Qfloor_le.
  - intros H. apply Qfloor_resp_le in H. rewrite Qfloor_Z in H. exact H.
Qed.
End AspectCanvas.

(** The canvas of [aspect] in exact arithmetic. *)
Lemma aspect_canvas (indefinite w h : Z) (f : Q) :
  0 < w <= Int64.max_int -> 0 < h <= Int64.max_int -> (0 < f)%Q ->
  (derived_extent w h f <= inject_Z Int64.max_int)%Q ->
  aspect indefinite (bounds w h) (F64.Fin f) =
  (if h <? w then Rect 0 0 w (Qfloor (inject_Z w / f))
   else Rect 0 0 (Qfloor (inject_Z h * f)) h).
Proof.
  intros Hw Hh Hf Hfit. unfold derived_extent in Hfit. unfold aspect.
  destruct (h <? w) eqn:E.
  - apply Z.ltb_lt in E.
    rewrite (aspect_dims_landscape w h f Hw Hh Hf E).
    rewrite to_int_of_int by lia.
    rewrite (to_int_nonneg _ _ (w_over_f_nonneg w f Hw Hf) Hfit).
    reflexivity.
  - apply Z.ltb_ge in E.
    rewrite (aspect_dims_portrait w h f Hw Hh E).
    rewrite to_int_of_int by lia.
    rewrite (to_int_nonneg _ _ (h_times_f_nonneg h f Hh Hf) Hfit).
    reflexivity.
Qed.

Lemma inject_Z_pred z : (inject_Z (z - 1) == inject_Z z - 1)%Q.
Proof.
  unfold Z.sub. rewrite inject_Z_plus, inject_Z_opp. reflexivity.
Qed.

Lemma Qfloor_le_ceiling q : Qfloor q <= Qceiling q.
Proof. rewrite Zle_Qle. apply Qle_floor_ceiling. Qed.

(** C3, as amended: for a source of w x h pixels (both positive, at most
    2^53) and a positive aspect factor f held by the processor (a
    [float64] value) whose derived extent is at most 2^53, [aspect] keeps
    the larger source axis and derives the other one from it: the canvas
    is at the origin; when w > h its width is w and its height is w / f
    brought to an integer, between floor(w / f) and ceiling(w / f);
    otherwise its height is h and its width is h * f brought to an
    integer, between floor(h * f) and ceiling(h * f).  The canvas does not
    contain the source for every factor: it contains it when h * f <= w
    (w > h) or w <= h * f (otherwise), so always for f = 1, and it can
    contain it only if (h - 1) * f < w, or w - 1 < h * f. *)
Theorem aspect_keeps_larger_axis (indefinite w h : Z) (f : Q) :
  0 < w <= 2 ^ 53 -> 0 < h <= 2 ^ 53 ->
  (0 < f)%Q -> F64.representable f ->
  (derived_extent w h f <= inject_Z (2 ^ 53))%Q ->
  let c := aspect indefinite (bounds w h) (F64.Fin f) in
  Min c = {| X := 0; Y := 0 |} /\
  (h < w ->
   X (Max c) = w /\
   Qfloor (inject_Z w / f) <= Y (Max c) <= Qceiling (inject_Z w / f) /\
   ((inject_Z h * f <= inject_Z w)%Q -> canvas_contains (bounds w h) c) /\
   (canvas_contains (bounds w h) c ->
    (inject_Z (h - 1) * f < inject_Z w)%Q)) /\
  (w <= h ->
   Y (Max c) = h /\
   Qfloor (inject_Z h * f) <= X (Max c) <= Qceiling (inject_Z h * f) /\
   ((inject_Z w <= inject_Z h * f)%Q -> canvas_contains (bounds w h) c) /\
   (canvas_contains (bounds w h) c ->
    (inject_Z (w - 1) < inject_Z h * f)%Q)) /\
  ((f == 1)%Q -> canvas_contains (bounds w h) c).
Proof.
  intros Hw Hh Hf _ Hfit c. subst c.
  assert (Hmax : 2 ^ 53 <= Int64.max_int) by (vm_compute; discriminate).
  assert (Hw' : 0 < w <= Int64.max_int) by lia.
  assert (Hh' : 0 < h <= Int64.max_int) by lia.
  assert (Hfit' : (derived_extent w h f <= inject_Z Int64.max_int)%Q).
  { apply Qle_trans with (inject_Z (2 ^ 53)); [exact Hfit|].
    rewrite <- Zle_Qle. exact Hmax. }
  rewrite (aspect_canvas indefinite w h f Hw' Hh' Hf Hfit').
  unfold canvas_contains. rewrite (bounds_Max w h Hw' Hh'). cbn [X Y].
  pose proof (Qfloor_nonneg _ (w_over_f_nonneg w f Hw' Hf)) as Fw.
  pose proof (Qfloor_nonneg _ (h_times_f_nonneg h f Hh' Hf)) as Fh.
  pose proof (Qfloor_le_ceiling (inject_Z w / f)) as Cw.
  pose proof (Qfloor_le_ceiling (inject_Z h * f)) as Ch.
  assert (Hdiv : forall n, (inject_Z n <= inject_Z w / f)%Q <->
                           (inject_Z n * f <= inject_Z w)%Q).
  { intros n. split; intros H.
    - apply (Qmult_le_compat_r _ _ f) in H; [|apply Qlt_le_weak; exact Hf].
      assert (Hm : (inject_Z w / f * f == inject_Z w)%Q)
        by (field; intros Hz; rewrite Hz in Hf; exact (Qlt_irrefl 0 Hf)).
      rewrite Hm in H. exact H.
    - apply Qle_shift_div_l; assumption. }
  destruct (h <? w) eqn:E.
  - apply Z.ltb_lt in E. rewrite Rect_origin by lia. cbn [X Y Min Max].
    split; [reflexivity|]. split; [|split].
    + intros _. split; [reflexivity|]. split; [lia|]. split.
      * intros H. split; [lia|]. apply le_Qfloor_iff, Hdiv. exact H.
      * intros [_ H]. apply le_Qfloor_iff, Hdiv in H.
        rewrite inject_Z_pred.
        assert (Hm : ((inject_Z h - 1) * f == inject_Z h * f - f)%Q) by ring.
        rewrite Hm. lra.
    + intros Hle. lia.
    + intros H1. split; [lia|]. apply le_Qfloor_iff, Hdiv.
      assert (inject_Z h < inject_Z w)%Q by (rewrite <- Zlt_Qlt; exact E).
      rewrite H1. lra.
  - apply Z.ltb_ge in E. rewrite Rect_origin by lia. cbn [X Y Min Max].
    split; [reflexivity|]. split; [|split].
    + intros Hlt. lia.
    + intros _. split; [reflexivity|]. split; [lia|]. split.
      * intros H. split; [|lia]. apply le_Qfloor_iff. exact H.
      * intros [H _]. apply le_Qfloor_iff in H.
        rewrite inject_Z_pred. lra.
    + intros H1. split; [|lia]. apply le_Qfloor_iff.
      assert (inject_Z w <= inject_Z h)%Q by (rewrite <- Zle_Qle; exact E).
      rewrite H1. lra.
Qed.

Lemma binary64_16_9_representable : F64.representable binary64_16_9.
Proof.
  exists 2001599834386887, (-50). split; [reflexivity|].
  split; [split; discriminate|]. reflexivity.
Defined.

Lemma aspect_keeps_larger_axis_witness :
  let c := aspect 0 (bounds 1920 800) (F64.Fin binary64_16_9) in
  X (Max c) = 1920 /\ Y (Max c) = 1080 /\
  canvas_contains (bounds 1920 800) c.
Proof.
  intros c. subst c.
  destruct (aspect_keeps_larger_axis 0 1920 800 binary64_16_9)
    as (_ & H & _).
  - vm_compute. split; [reflexivity | discriminate].
  - vm_compute. split; [reflexivity | discriminate].
  - reflexivity.
  - exact binary64_16_9_representable.
  - vm_compute. discriminate.
  - destruct (H ltac:(lia)) as (Hx & _ & Hc & _).
    split; [exact Hx|]. split; [reflexivity|].
    apply Hc. vm_compute. discriminate.
Defined.

(** C3 fails as stated: "2:1" parses to the factor 2, and for a source of
    1000 x 800 pixels the canvas is 1000 x 500, lower than the source. *)
Lemma aspect_canvas_crops_source :
  parseAspect decimal "2:1" = Ret (F64.Fin (2 / 1), None) /\
  aspect 0 (bounds 1000 800) (F64.Fin (2 / 1)) = Rect 0 0 1000 500 /\
  ~ canvas_contains (bounds 1000 800)
      (aspect 0 (bounds 1000 800) (F64.Fin (2 / 1))).
Proof.
  split; [reflexivity|]. split; [reflexivity|].
  intros [_ H]. vm_compute in H. apply H. reflexivity.
Qed.

(** ** The placement computed by [centered] *)

Section Centered.
Variables sw sh dw dh : Z.
Hypothesis sw_range : 0 <= sw <= 2 ^ 61.
Hypothesis sh_range : 0 <= sh <= 2 ^ 61.
Hypothesis dw_range : 0 <= dw <= 2 ^ 61.
Hypothesis dh_range : 0 <= dh <= 2 ^ 61.

Lemma half_range z : 0 <= z <= 2 ^ 61 -> 0 <= Z.quot z 2 <= z.
Proof. intros H. rewrite Z.quot_div_nonneg by lia. split;
  [apply Z.div_pos; lia | apply Z.div_le_upper_bound; lia]. Qed.

(** On sizes that do not overflow, the corners are those written in the
    source: the top-left corner is the centring offset, the bottom-right
    corner is (dw/2 + dw, dh/2 + sh). *)
Lemma centered_corners :
  centered (bounds sw sh) (bounds dw dh) =
  {| Min := {| X := Z.quot dw 2 - Z.quot sw 2;
               Y := Z.quot dh 2 - Z.quot sh 2 |};
     Max := {| X := Z.quot dw 2 + dw; Y := Z.quot dh 2 + sh |} |}.
Proof using sw_range sh_range dw_range dh_range.
  pose proof (half_range sw sw_range). pose proof (half_range sh sh_range).
  pose proof (half_range dw dw_range). pose proof (half_range dh dh_range).
  assert (R : forall z, - 2 ^ 62 <= z <= 2 ^ 62 -> Int64.wrap z = z).
  { intros z Hz. apply wrap_in_range.
    unfold Int64.in_range, Int64.min_int, Int64.max_int, Int64.half. lia. }
  unfold centered, bounds. rewrite !Rect_origin by lia. cbn [X Y Max].
  unfold Int64.sub, Int64.add, Int64.div.
  rewrite !(R (Z.quot _ 2)) by lia. rewrite !R by lia.
  apply Rect_ordered; lia.
Qed.

(** The extents of the placement are dw + sw/2 and sh + sh/2. *)
Lemma centered_extents :
  Dx (centered (bounds sw sh) (bounds dw dh)) = dw + Z.quot sw 2 /\
  Dy (centered (bounds sw sh) (bounds dw dh)) = sh + Z.quot sh 2.
Proof using sw_range sh_range dw_range dh_range.
  pose proof (half_range sw sw_range). pose proof (half_range sh sh_range).
  pose proof (half_range dw dw_range). pose proof (half_range dh dh_range).
  rewrite centered_corners. unfold Dx, Dy, Int64.sub. cbn [X Y Min Max].
  split; rewrite wrap_in_range;
    unfold Int64.in_range, Int64.min_int, Int64.max_int, Int64.half; lia.
Qed.
End Centered.

(** C4: for a source of 1000 x 500 pixels on a canvas of 1000 x 1000, the
    rectangle returned by [centered] has its top-left corner at (0, 250),
    the centring offset, and its bottom-right corner at (1500, 1000): it
    is 1500 wide and 750 high, not 1000 x 500 as the source. *)
Theorem centered_extents_exceed_source :
  centered (bounds 1000 500) (bounds 1000 1000) = Rect 0 250 1500 1000 /\
  Dx (centered (bounds 1000 500) (bounds 1000 1000)) = 1500 /\
  Dy (centered (bounds 1000 500) (bounds 1000 1000)) = 750 /\
  Dx (bounds 1000 500) = 1000 /\ Dy (bounds 1000 500) = 500.
Proof. repeat split; reflexivity. Qed.

(** ** The skip test *)

Section Skip.
Variable indefinite : Z.
Variable Stat : string -> stat_result.
Variable Join : string -> string -> string.
Variable Open : string -> option error.
Variable Decode : string -> Rectangle + error.
Variable render :
  Processor -> Rectangle -> Rectangle -> Rectangle -> string ->
  outcome (option error).

Abbreviation skipped' := (skipped indefinite Stat Join Open Decode render).
Abbreviation processed' :=
  (processed indefinite Stat Join Open Decode render).

(** [unmodified] by cases on the two probes. *)
Lemma unmodified_cases src dst :
  unmodified Stat src dst =
  match Stat dst, Stat src with
  | StatErr ErrNotExist, _ => Ret false
  | _, StatErr _ => Ret false
  | StatOk di, StatOk si => Ret (After (ModTime di) (ModTime si))
  | StatErr _, StatOk _ => Panic "nil pointer dereference"
  end.
Proof.
  unfold unmodified.
  destruct (Stat dst) as [di|e]; [|destruct e];
    destruct (Stat src) as [si|e']; simpl; try reflexivity.
  destruct (After (ModTime di) (ModTime si)); reflexivity.
Qed.

Lemma unmodified_true_iff src dst :
  unmodified Stat src dst = Ret true <->
  exists di si, Stat dst = StatOk di /\ Stat src = StatOk si /\
                ModTime si < ModTime di.
Proof.
  rewrite unmodified_cases. split.
  - destruct (Stat dst) as [di|e]; [|destruct e];
      destruct (Stat src) as [si|e']; try discriminate.
    intros H. exists di, si. repeat split.
    injection H as H. apply Z.ltb_lt. exact H.
  - intros (di & si & -> & -> & H). f_equal. apply Z.ltb_lt. exact H.
Qed.

Lemma skipped_iff p path :
  skipped' p path <->
  unmodified Stat path (Join (dir p) path) = Ret true /\ force p = false.
Proof.
  unfold skipped, process.
  destruct (unmodified Stat path (Join (dir p) path)) as [[|]|why];
    destruct (force p); simpl; split;
    try (intros H; discriminate H);
    try (intros [H1 H2]; discriminate);
    try (intros _; split; reflexivity);
    try reflexivity.
Qed.

Lemma processed_iff p path :
  processed' p path <->
  exists u, unmodified Stat path (Join (dir p) path) = Ret u /\
            u && negb (force p) = false.
Proof.
  unfold processed, process.
  destruct (unmodified Stat path (Join (dir p) path)) as [u|why].
  - destruct (u && negb (force p)) eqn:E; split.
    + intros H. discriminate H.
    + intros (u' & Hu & H'). injection Hu as <-. congruence.
    + intros _. exists u. split; [reflexivity|exact E].
    + reflexivity.
  - split; [intros H; discriminate H|].
    intros (u & Hu & _). discriminate Hu.
Qed.
End Skip.

(** The skip test of [process], on the probes on which [unmodified]
    returns: the item is skipped exactly when the force flag is off, the
    output exists and its modification time is strictly after that of
    the source.  With the force flag on the item is never skipped, and it
    is processed when both probes succeed; an item whose output is
    missing, or whose output is not newer than the source, is processed.
    An item is processed exactly when it is not skipped and the skip test
    returns. *)
Theorem process_skips_iff
    (indefinite : Z) (Stat : string -> stat_result)
    (Join : string -> string -> string) (Open : string -> option error)
    (Decode : string -> Rectangle + error)
    (render : Processor -> Rectangle -> Rectangle -> Rectangle -> string ->
              outcome (option error))
    (p : Processor) (path : string) :
  (skipped indefinite Stat Join Open Decode render p path <->
   force p = false /\
   exists di si, Stat (Join (dir p) path) = StatOk di /\
                 Stat path = StatOk si /\ ModTime si < ModTime di) /\
  (force p = true ->
   ~ skipped indefinite Stat Join Open Decode render p path) /\
  (force p = true ->
   forall di si, Stat (Join (dir p) path) = StatOk di ->
                 Stat path = StatOk si ->
   processed indefinite Stat Join Open Decode render p path) /\
  (Stat (Join (dir p) path) = StatErr ErrNotExist ->
   processed indefinite Stat Join Open Decode render p path) /\
  (forall di si, Stat (Join (dir p) path) = StatOk di ->
                 Stat path = StatOk si -> ModTime di <= ModTime si ->
   processed indefinite Stat Join Open Decode render p path) /\
  (processed indefinite Stat Join Open Decode render p path <->
   ~ skipped indefinite Stat Join Open Decode render p path /\
   returns (unmodified Stat path (Join (dir p) path)) = true).
Proof.
  split; [|split; [|split; [|split; [|split]]]].
  - rewrite skipped_iff, unmodified_true_iff. tauto.
  - intros Hf Hs. apply skipped_iff in Hs as [_ Hs]. congruence.
  - intros Hf di si Hd Hs. apply processed_iff.
    exists (After (ModTime di) (ModTime si)).
    rewrite unmodified_cases, Hd, Hs, Hf.
    split; [reflexivity|apply andb_false_r].
  - intros Hd. apply processed_iff. exists false.
    rewrite unmodified_cases, Hd. split; [|reflexivity].
    destruct (Stat path); reflexivity.
  - intros di si Hd Hs Hle. apply processed_iff. exists false.
    rewrite unmodified_cases, Hd, Hs. split; [|reflexivity].
    f_equal. apply Z.ltb_ge. exact Hle.
  - rewrite processed_iff, skipped_iff.
    destruct (unmodified Stat path (Join (dir p) path)) as [u|why]; simpl.
    + split.
      * intros (u' & Hu & Hskip). injection Hu as <-.
        split; [|reflexivity]. intros [Hu Hf]. injection Hu as ->.
        rewrite Hf in Hskip. discriminate Hskip.
      * intros [Hns _]. exists u. split; [reflexivity|].
        destruct u; [|reflexivity]. destruct (force p); [reflexivity|].
        exfalso. apply Hns. split; reflexivity.
    + split; [intros (u & Hu & _); discriminate Hu|].
      intros [_ H]. discriminate H.
Qed.

(** With the force flag on, what [process] does is decided by the skip
    test alone: when [unmodified] returns, the line "Processing" is
    logged and the result is that of opening, decoding and rendering the
    item; when it panics, nothing is logged and [process] panics. *)
Lemma process_forced
    (indefinite : Z) (Stat : string -> stat_result)
    (Join : string -> string -> string) (Open : string -> option error)
    (Decode : string -> Rectangle + error)
    (render : Processor -> Rectangle -> Rectangle -> Rectangle -> string ->
              outcome (option error))
    (p : Processor) (path : string) :
  force p = true ->
  process indefinite Stat Join Open Decode render p path =
  match unmodified Stat path (Join (dir p) path) with
  | Ret _ =>
      ([LogProcessing path],
       match Open path with
       | Some e => Ret (Some (Wrapped "opening" e))
       | None =>
           match Decode path with
           | inr e => Ret (Some (Wrapped "decoding" e))
           | inl sb =>
               render p sb (fst (layout indefinite p sb))
                 (snd (layout indefinite p sb)) (Join (dir p) path)
           end
       end)
  | Panic why => ([], Panic why)
  end.
Proof.
  intros Hf. unfold process, pipeline. rewrite Hf.
  destruct (unmodified Stat path (Join (dir p) path)) as [u|why];
    [|reflexivity].
  rewrite andb_false_r.
  destruct (Open path); [reflexivity|].
  destruct (Decode path) as [sb|e]; [|reflexivity].
  destruct (layout indefinite p sb). reflexivity.
Qed.

(** C6: with the force flag on, on a file system where the probe of the
    output "processed/a.jpg" fails with permission denied and the source
    "a.jpg" exists, opens and decodes, the item is not processed: [process]
    logs nothing and panics inside [unmodified], before the force flag is
    read; it does not log "Processing" and return the result of the
    pipeline (nil here). *)
Theorem process_forced_panics_on_stat_error :
  force (set_force true (set_dir "processed" zero_Processor)) = true /\
  denied_fs (join_slash "processed" "a.jpg") = StatErr ErrPermission /\
  denied_fs "a.jpg" = StatOk {| ModTime := 1 |} /\
  process 0 denied_fs join_slash open_ok decode_1000x500 render_ok
    (set_force true (set_dir "processed" zero_Processor)) "a.jpg" =
    ([], Panic "nil pointer dereference") /\
  process 0 denied_fs join_slash open_ok decode_1000x500 render_ok
    (set_force true (set_dir "processed" zero_Processor)) "a.jpg" <>
    ([LogProcessing "a.jpg"], Ret None) /\
  process 0 empty_fs join_slash open_ok decode_1000x500 render_ok
    (set_force true (set_dir "processed" zero_Processor)) "a.jpg" =
    ([LogProcessing "a.jpg"], Ret None).
Proof.
  repeat split; try reflexivity. intros H. discriminate H.
Qed.

(** The four rows of the skip table, on concrete file systems. *)
Example skip_table :
  skipped 0 fresh_fs join_slash open_ok decode_1000x500 render_ok
    (set_dir "processed" zero_Processor) "a.jpg" /\
  processed 0 fresh_fs join_slash open_ok decode_1000x500 render_ok
    (set_force true (set_dir "processed" zero_Processor)) "a.jpg" /\
  processed 0 empty_fs join_slash open_ok decode_1000x500 render_ok
    (set_dir "processed" zero_Processor) "a.jpg".
Proof. repeat split; reflexivity. Qed.

(** C7: when the probe of the output fails with an error other than
    not-exist (here: permission denied) and the probe of the source
    succeeds, [unmodified] calls [ModTime] on the nil file info of the
    output and panics; it does not return false, and [process] panics
    with it whatever the force flag is. *)
Theorem unmodified_panics_on_stat_error :
  unmodified denied_fs "a.jpg" "processed/a.jpg" =
    Panic "nil pointer dereference" /\
  denied_fs "processed/a.jpg" = StatErr ErrPermission /\
  denied_fs "a.jpg" = StatOk {| ModTime := 1 |} /\
  (forall forced,
     process 0 denied_fs join_slash open_ok decode_1000x500 render_ok
       (set_force forced (set_dir "processed" zero_Processor)) "a.jpg" =
     ([], Panic "nil pointer dereference")).
Proof.
  repeat split; reflexivity.
Qed.


(** [unmodified] panics exactly when the probe of the output fails with
    another error than not-exist and the probe of the source succeeds. *)
Lemma unmodified_panics_iff Stat src dst :
  returns (unmodified Stat src dst) = false <->
  exists e si, Stat dst = StatErr e /\ e <> ErrNotExist /\
               Stat src = StatOk si.
Proof.
  rewrite unmodified_cases. split.
  - destruct (Stat dst) as [di|e]; [|destruct e];
      destruct (Stat src) as [si|e']; simpl; try discriminate;
      intros _; eexists _, si; repeat split; discriminate.
  - intros (e & si & -> & Hne & ->). destruct e; try reflexivity.
    congruence.
Qed.

(** ** A processor built without [WithAspect] *)





(** ** The coordinator *)

Lemma count_nonneg f l : 0 <= count f l.
Proof. induction l as [|t l IH]; simpl; [lia|]. destruct (f t); lia. Qed.

Lemma count_app f l1 l2 : count f (l1 ++ l2) = count f l1 + count f l2.
Proof. induction l1 as [|t l1 IH]; simpl; [reflexivity|]. rewrite IH. lia. Qed.

Lemma count_insert f (l : list task) i t t' :
  l !! i = Some t ->
  count f (<[i := t']> l) =
  count f l - (if f t then 1 else 0) + (if f t' then 1 else 0).
Proof.
  revert i. induction l as [|x l IH]; intros [|i] H; try discriminate.
  - injection H as ->. simpl. lia.
  - simpl in *. rewrite (IH i H). lia.
Qed.

Lemma count_le f g l :
  (forall t, f t = true -> g t = true) -> count f l <= count g l.
Proof.
  intros Hfg. induction l as [|t l IH]; simpl; [lia|].
  destruct (f t) eqn:E; [rewrite (Hfg t E); lia|].
  destruct (g t); lia.
Qed.

Lemma count_zero_lookup f (l : list task) i t :
  count f l = 0 -> l !! i = Some t -> f t = false.
Proof.
  revert i. induction l as [|x l IH]; intros [|i] Hc H; try discriminate.
  - injection H as ->. simpl in Hc. pose proof (count_nonneg f l).
    destruct (f t); [lia|reflexivity].
  - simpl in *. pose proof (count_nonneg f l).
    apply (IH i); [destruct (f x); lia | exact H].
Qed.

Lemma map_item_insert (l : list task) i t t' :
  l !! i = Some t -> item t' = item t ->
  map item (<[i := t']> l) = map item l.
Proof.
  revert i. induction l as [|x l IH]; intros [|i] H E; try discriminate.
  - injection H as ->. simpl. rewrite E. reflexivity.
  - simpl in *. rewrite (IH i H E). reflexivity.
Qed.

Lemma running_le_holders s : running s <= holders s.
Proof.
  apply count_le. intros t. unfold is_running, is_holding.
  destruct (ph t); congruence.
Qed.

(** Case analysis on an enabled step. *)
Ltac step_cases H :=
  unfold step, set_task in H;
  repeat match type of H with
    | match ?x with _ => _ end = Some _ =>
        let E := fresh "E" in destruct x eqn:E; try discriminate H
    end;
  try (injection H as <-).

Section CoordinatorInvariants.
Variable transform : string -> outcome (option error).

Lemma run_app evs1 evs2 s :
  run transform (evs1 ++ evs2) s =
  match run transform evs1 s with
  | Some s' => run transform evs2 s'
  | None => None
  end.
Proof.
  revert s. induction evs1 as [|e evs1 IH]; intros s; simpl; [reflexivity|].
  destruct (step transform s e); [apply IH|reflexivity].
Qed.

(** Establish. *)
Lemma sem_inv_init n images : 0 <= n -> sem_inv n (init n images).
Proof. intros Hn. unfold sem_inv, holders. simpl. lia. Qed.

(** Preserve. *)
Lemma sem_inv_step n s e s' :
  sem_inv n s -> step transform s e = Some s' -> sem_inv n s'.
Proof.
  intros (Hsize & Hcur & Hle) Hstep. unfold sem_inv, holders in *.
  step_cases Hstep; simpl;
    rewrite ?count_app;
    try match goal with
      | E : tasks s !! _ = Some _ |- _ =>
          rewrite (count_insert _ _ _ _ _ E)
      end;
    simpl;
    try match goal with
      | E : (_ <=? _) = true |- _ => apply Z.leb_le in E
      end;
    lia.
Qed.

Lemma sem_inv_run n evs s s' :
  sem_inv n s -> run transform evs s = Some s' -> sem_inv n s'.
Proof.
  revert s. induction evs as [|e evs IH]; intros s Hinv Hrun; simpl in Hrun.
  - injection Hrun as <-. exact Hinv.
  - destruct (step transform s e) as [s1|] eqn:E; [|discriminate].
    exact (IH s1 (sem_inv_step _ _ _ _ Hinv E) Hrun).
Qed.

(** Establish. *)
Lemma loop_inv_init n images : loop_inv images (init n images).
Proof.
  unfold loop_inv. simpl. repeat split; try reflexivity; discriminate.
Qed.

(** A goroutine that is not finished keeps the counter positive. *)
Lemma live_task_counted l i (t : task) :
  l !! i = Some t -> is_live t = true -> 0 < count is_live l.
Proof.
  intros Hi Hlive.
  destruct (Z.eq_dec (count is_live l) 0) as [Hz|Hnz].
  - rewrite (count_zero_lookup _ _ _ _ Hz Hi) in Hlive. discriminate.
  - pose proof (count_nonneg is_live l). lia.
Qed.

(** Preserve. *)
Lemma loop_inv_step images s e s' :
  loop_inv images s -> step transform s e = Some s' -> loop_inv images s'.
Proof.
  intros (Hitems & Hwg & Hwait & Hexit) Hstep. unfold loop_inv.
  step_cases Hstep; cbn [tasks pending wg main ctx_done err];
    try match goal with
      | E : tasks s !! _ = Some ?t |- _ =>
          pose proof (live_task_counted _ _ _ E eq_refl) as Hlive;
          rewrite ?(count_insert _ _ _ _ _ E);
          rewrite ?(map_item_insert _ _ _ _ E) by reflexivity
      end;
    rewrite ?map_app, ?count_app, <- ?app_assoc; simpl;
    repeat match goal with
      | H : pending s = _ |- _ => rewrite H in *
      | H : main s = _ |- _ => rewrite H in *
      | H : (_ =? _) = true |- _ => apply Z.eqb_eq in H
      end;
    (split; [assumption|]); (split; [lia|]);
    (split; [solve [assumption | discriminate | reflexivity ]|]);
    intros r' Hr Hdone;
    solve [ discriminate
          | destruct (Hexit r' Hr Hdone) as (? & ? & ?); exfalso; lia
          | apply Hexit; assumption
          | injection Hr as <-; auto ].
Qed.

Lemma loop_inv_run images evs s s' :
  loop_inv images s -> run transform evs s = Some s' -> loop_inv images s'.
Proof.
  revert s. induction evs as [|e evs IH]; intros s Hinv Hrun; simpl in Hrun.
  - injection Hrun as <-. exact Hinv.
  - destruct (step transform s e) as [s1|] eqn:E; [|discriminate].
    exact (IH s1 (loop_inv_step _ _ _ _ Hinv E) Hrun).
Qed.

(** Use: when the counter is zero every goroutine is finished. *)
Lemma all_done l : count is_live l = 0 -> Forall (fun t => ph t = Done) l.
Proof.
  induction l as [|t l IH]; intros H; constructor;
    simpl in H; pose proof (count_nonneg is_live l);
    unfold is_live in H at 1; destruct (ph t); try lia; try reflexivity.
  apply IH. lia.
Qed.
End CoordinatorInvariants.

(** ** Bounded concurrency and admission *)

(** C1: in every state a run of [Process] reaches, with a ceiling of at
    least 1, the number of goroutines inside [p.process] is at most the
    ceiling; the units held on the semaphore are exactly the goroutines
    between their admission and their deferred release, and those are at
    most the ceiling as well. *)
Theorem Process_bounded_concurrency
    (indefinite : Z) (Stat : string -> stat_result)
    (Join : string -> string -> string) (Open : string -> option error)
    (Decode : string -> Rectangle + error)
    (render : Processor -> Rectangle -> Rectangle -> Rectangle -> string ->
              outcome (option error))
    (p : Processor) (images : list string) (schedule : list event)
    (s : state) :
  1 <= concurrency p ->
  Process indefinite Stat Join Open Decode render p images schedule = Some s ->
  running s <= concurrency p /\
  cur s = holders s /\
  running s <= holders s /\
  holders s <= concurrency p.
Proof.
  intros Hn Hrun. unfold Process in Hrun.
  pose proof (sem_inv_run _ _ _ _ _
                (sem_inv_init (concurrency p) images ltac:(lia)) Hrun)
    as (_ & Hcur & Hle).
  pose proof (running_le_holders s). repeat split; lia.
Qed.

Lemma Process_bounded_concurrency_witness :
  exists s,
    Process 0 empty_fs join_slash open_ok decode_1000x500 render_ok
      (cli_processor 2) ["a.jpg"; "b.jpg"; "c.jpg"]
      [Admit; Admit; Start 0; Start 1] = Some s /\
    running s = 2 /\ pending s = ["c.jpg"] /\
    running s <= concurrency (cli_processor 2).
Proof.
  eexists. split; [vm_compute; reflexivity|].
  split; [reflexivity|]. split; [reflexivity|].
  refine (proj1 (Process_bounded_concurrency 0 empty_fs join_slash open_ok
                   decode_1000x500 render_ok (cli_processor 2)
                   ["a.jpg"; "b.jpg"; "c.jpg"]
                   [Admit; Admit; Start 0; Start 1] _ _ _)).
  - vm_compute. discriminate.
  - vm_compute. reflexivity.
Defined.

(** With the ceiling reached, the loop cannot admit the next item. *)
Example admission_waits_for_a_unit :
  Process 0 empty_fs join_slash open_ok decode_1000x500 render_ok
    (cli_processor 2) ["a.jpg"; "b.jpg"; "c.jpg"]
    [Admit; Admit; Admit] = None.
Proof. reflexivity. Qed.

(** C2, as amended: recording an error does not stop admission.  In every
    state a run of [Process] reaches, the items admitted so far followed
    by the pending ones are the list given; whenever the loop is at an
    item and a semaphore unit is free, the admission step is enabled and
    leaves the recorded error as it is, whether or not one has been
    recorded; and when [Process] has returned without the context being
    cancelled, every item of the list has been admitted and its goroutine
    has finished, and the value returned is the recorded error. *)
Theorem Process_admits_every_item
    (indefinite : Z) (Stat : string -> stat_result)
    (Join : string -> string -> string) (Open : string -> option error)
    (Decode : string -> Rectangle + error)
    (render : Processor -> Rectangle -> Rectangle -> Rectangle -> string ->
              outcome (option error))
    (p : Processor) (images : list string) (schedule : list event)
    (s : state) :
  Process indefinite Stat Join Open Decode render p images schedule = Some s ->
  map item (tasks s) ++ pending s = images /\
  (forall path rest,
     main s = Looping -> pending s = path :: rest ->
     crashed s = false -> cur s < size s ->
     exists s',
       step (process_result indefinite Stat Join Open Decode render p)
         s Admit = Some s' /\
       tasks s' = tasks s ++ [{| item := path; ph := Spawned |}] /\
       pending s' = rest /\ err s' = err s) /\
  (forall r,
     main s = Exited r -> ctx_done s = false ->
     pending s = [] /\ map item (tasks s) = images /\
     Forall (fun t => ph t = Done) (tasks s) /\ r = err s).
Proof.
  intros Hrun. unfold Process in Hrun.
  pose proof (loop_inv_run _ _ _ _ _ (loop_inv_init _ _) Hrun)
    as (Hitems & Hwg & _ & Hexit).
  split; [exact Hitems|]. split.
  - intros path rest Hmain Hpend Hcrash Hfree.
    unfold step. rewrite Hcrash, Hmain, Hpend.
    replace (1 <=? size s - cur s) with true
      by (symmetry; apply Z.leb_le; lia).
    eexists. split; [reflexivity|]. repeat split.
  - intros r Hr Hdone. destruct (Hexit r Hr Hdone) as (Hp & H0 & Hre).
    rewrite Hp, app_nil_r in Hitems.
    repeat split; try assumption.
    apply all_done. lia.
Qed.

Lemma Process_admits_every_item_witness :
  exists s,
    Process 0 empty_fs join_slash open_ok decode_a_corrupt render_ok
      (cli_processor 1) ["a.jpg"; "b.jpg"]
      [Admit; Start 0; Return 0; Release 0; Finish 0;
       Admit; Start 1; Return 1; Release 1; Finish 1;
       LoopExit; WaitReturn] = Some s /\
    main s =
      Exited (Some (Wrapped "decoding" (ErrOther "image: unknown format"))) /\
    map item (tasks s) = ["a.jpg"; "b.jpg"] /\
    Forall (fun t => ph t = Done) (tasks s).
Proof.
  eexists. split; [vm_compute; reflexivity|]. split; [reflexivity|].
  pose proof (Process_admits_every_item 0 empty_fs join_slash open_ok
                decode_a_corrupt render_ok (cli_processor 1)
                ["a.jpg"; "b.jpg"]
                [Admit; Start 0; Return 0; Release 0; Finish 0;
                 Admit; Start 1; Return 1; Release 1; Finish 1;
                 LoopExit; WaitReturn] _ ltac:(vm_compute; reflexivity))
    as (_ & _ & H).
  destruct (H _ eq_refl eq_refl) as (_ & Hitems & Hdone & _).
  split; [exact Hitems | exact Hdone].
Defined.

(** C2 fails as stated: with a ceiling of 1 and the items "a.jpg" and
    "b.jpg", where "a.jpg" does not decode, the error of "a.jpg" is
    recorded by the group before "b.jpg" is admitted, and "b.jpg" is then
    admitted and enters [p.process]. *)
Lemma admission_continues_after_failure :
  ~ fail_fast
      (process_result 0 empty_fs join_slash open_ok decode_a_corrupt
         render_ok (cli_processor 1))
      1 ["a.jpg"; "b.jpg"].
Proof.
  intros H.
  pose (tf := process_result 0 empty_fs join_slash open_ok decode_a_corrupt
                render_ok (cli_processor 1)).
  destruct (run tf [Admit; Start 0; Return 0; Release 0; Finish 0]
              (init 1 ["a.jpg"; "b.jpg"])) as [s1|] eqn:E1;
    [|vm_compute in E1; discriminate E1].
  pose proof E1 as E1'. vm_compute in E1'. injection E1' as <-.
  destruct (run tf [Admit; Start 1]
              {| size := 1; cur := 0; pending := ["b.jpg"];
                 tasks := [{| item := "a.jpg"; ph := Done |}]; wg := 0;
                 err := Some (Wrapped "decoding"
                                (ErrOther "image: unknown format"));
                 main := Looping; ctx_done := false; crashed := false |})
    as [s2|] eqn:E2; [|vm_compute in E2; discriminate E2].
  pose proof E2 as E2'. vm_compute in E2'. injection E2' as <-.
  pose proof (H _ _ _ _ E1 ltac:(discriminate) E2 1%nat
                {| item := "b.jpg"; ph := Running |} eq_refl eq_refl) as Hlt.
  simpl in Hlt. lia.
Qed.

(** The default ratio of the command on a 3:2 photograph of 6000 x 4000
    pixels: the canvas is 6000 x 3375 (in exact arithmetic). *)
Example aspect_default_ratio :
  parseAspect decimal "16:9" = Ret (F64.Fin (16 / 9), None) /\
  aspect 0 (bounds 6000 4000) (F64.Fin (16 / 9)) = Rect 0 0 6000 3375.
Proof. split; reflexivity. Qed.

(** * Further properties of the code *)

(** ** [New] and the options *)

Lemma apply_options_app os1 os2 v :
  apply_options (os1 ++ os2) v =
  match apply_options os1 v with
  | Ret (Some v1, None) => apply_options os2 v1
  | other => other
  end.
Proof.
  revert v. induction os1 as [|o os1 IH]; intros v; simpl; [reflexivity|].
  destruct (o v) as [[v' [e|]]|why]; simpl; [reflexivity| |reflexivity].
  apply IH.
Qed.

(** [New] runs the options from left to right on the processor left by
    the ones before: after a prefix that succeeded, the next option decides.
    If it returns an error, [New] returns no processor and that error, and
    the options after it have no effect; if it panics, so does [New]. *)
Theorem New_stops_at_first_error
    (d : string) (os1 os2 : list Option) (o : Option) (v1 : Processor) :
  New d os1 = Ret (Some v1, None) ->
  New d (os1 ++ o :: os2) =
  match o v1 with
  | Ret (_, Some e) => Ret (None, Some e)
  | Ret (v2, None) => apply_options os2 v2
  | Panic why => Panic why
  end.
Proof.
  unfold New. intros H. rewrite apply_options_app, H. simpl.
  destruct (o v1) as [[v2 [e|]]|why]; reflexivity.
Qed.

Lemma New_stops_at_first_error_witness :
  New "processed"
    ([WithQuality 80] ++ WithAspect decimal "x:9" :: [WithForce true]) =
  Ret (None, Some (ErrSyntax "x")).
Proof.
  exact (New_stops_at_first_error "processed" [WithQuality 80]
           [WithForce true] (WithAspect decimal "x:9")
           (set_quality 80
              (set_dir "processed"
                 (set_quality 90 (set_concurrency 1 zero_Processor))))
           eq_refl).
Defined.

Section Settings.
Variable ParseFloat : string -> F64.t * option error.

Lemma apply_settings_fields xs : forall v p a0 last,
  apply_options (map (option_of ParseFloat) xs) v = Ret (Some p, None) ->
  aspect_from ParseFloat a0 last (aspect_ratio v) ->
  dir p = dir v /\
  white p = last_of pick_white xs (white v) /\
  force p = last_of pick_force xs (force v) /\
  padding_frac p = last_of pick_padding xs (padding_frac v) /\
  quality p = last_of pick_quality xs (quality v) /\
  concurrency p = last_of pick_concurrency xs (concurrency v) /\
  aspect_from ParseFloat a0 (last_of pick_ratio xs last) (aspect_ratio p).
Proof.
  unfold last_of.
  induction xs as [|x xs IH]; intros v p a0 last H Ha; simpl in *.
  - injection H as <-. repeat split; assumption.
  - destruct x; simpl in H;
      try (destruct (IH _ _ a0 last H Ha) as (? & ? & ? & ? & ? & ? & ?);
           repeat split; assumption).
    unfold WithAspect in H.
    destruct (parseAspect ParseFloat ratio) as [[n [e|]]|why] eqn:E;
      simpl in H; try discriminate H.
    destruct (IH _ _ a0 (Some ratio) H E) as (? & ? & ? & ? & ? & ? & ?).
    repeat split; assumption.
Qed.
End Settings.

(** Each field of the processor [New] returns depends on the options of
    its own kind only: the directory is the one given; the background,
    force, padding, quality and concurrency fields hold the value of the
    last option of their kind, or the default (false, false, 0, 90, 1);
    the aspect is the value parsed from the last ratio given, or 0. *)
Theorem New_fields
    (ParseFloat : string -> F64.t * option error)
    (d : string) (xs : list setting) (p : Processor) :
  New d (map (option_of ParseFloat) xs) = Ret (Some p, None) ->
  dir p = d /\
  white p = last_of pick_white xs false /\
  force p = last_of pick_force xs false /\
  padding_frac p = last_of pick_padding xs F64.zero /\
  quality p = last_of pick_quality xs 90 /\
  concurrency p = last_of pick_concurrency xs 1 /\
  match last_of pick_ratio xs None with
  | Some ratio => parseAspect ParseFloat ratio = Ret (aspect_ratio p, None)
  | None => aspect_ratio p = F64.zero
  end.
Proof.
  intros H. unfold New in H.
  exact (apply_settings_fields ParseFloat xs _ p F64.zero None H eq_refl).
Qed.

Lemma New_fields_witness :
  exists p,
    New "processed"
      (map (option_of decimal)
         [SetWhite true; SetConcurrency 8; SetQuality 90; SetForce true;
          SetAspect "16:9"; SetPadding 6; SetWhite false]) =
      Ret (Some p, None) /\
    white p = false /\ force p = true /\ concurrency p = 8 /\
    aspect_ratio p = F64.Fin (16 / 9).
Proof.
  eexists. split; [reflexivity|].
  destruct (New_fields decimal "processed"
              [SetWhite true; SetConcurrency 8; SetQuality 90; SetForce true;
               SetAspect "16:9"; SetPadding 6; SetWhite false] _ eq_refl)
    as (_ & Hw & Hf & _ & _ & Hc & _).
  split; [exact Hw|]. split; [exact Hf|]. split; [exact Hc|]. reflexivity.
Defined.

(** ** More on [parseAspect] *)

Section ParseEdges.
Variable ParseFloat : string -> F64.t * option error.

Lemma parseAspect_pieces s p0 p1 rest :
  Split ":" s = p0 :: p1 :: rest ->
  parseAspect ParseFloat s =
  match ParseFloat p0 with
  | (_, Some e) => Ret (F64.zero, Some e)
  | (a, None) =>
      match ParseFloat p1 with
      | (_, Some e) => Ret (F64.zero, Some e)
      | (b, None) => Ret (F64.div a b, None)
      end
  end.
Proof.
  intros H. unfold parseAspect. rewrite H. simpl.
  destruct (ParseFloat p0) as [a [e|]]; [reflexivity|].
  destruct (ParseFloat p1) as [b [e|]]; reflexivity.
Qed.
End ParseEdges.

(** Only the first two pieces of the ratio are read: whatever follows a
    second colon is ignored, so "a:b:rest" is parsed as "a:b". *)
Theorem parseAspect_ignores_extra_pieces
    (ParseFloat : string -> F64.t * option error) (sa sb rest : string) :
  contains_char ":" sa = false -> contains_char ":" sb = false ->
  parseAspect ParseFloat
    (ratio_string sa (String.append sb (String ":" rest))) =
  parseAspect ParseFloat (ratio_string sa sb).
Proof.
  intros Ha Hb. unfold ratio_string.
  rewrite (parseAspect_pieces ParseFloat _ sa sb (Split ":" rest)).
  - rewrite (parseAspect_pieces ParseFloat _ sa sb []); [reflexivity|].
    apply Split_pair; assumption.
  - rewrite (Split_at_sep _ _ _ Ha), (Split_at_sep _ _ _ Hb). reflexivity.
Qed.

Lemma parseAspect_ignores_extra_pieces_witness :
  parseAspect decimal "16:9:abc" = Ret (F64.Fin (16 / 9), None).
Proof.
  exact (eq_trans
           (parseAspect_ignores_extra_pieces decimal "16" "9" "abc"
              eq_refl eq_refl)
           eq_refl).
Defined.

(** A ratio with a colon whose second number does not parse is refused:
    [parseAspect] returns the parse error with the value 0, [WithAspect]
    stores 0 in the aspect field and returns the error, and [New] returns
    no processor and the error. *)
Theorem parseAspect_second_number_error
    (ParseFloat : string -> F64.t * option error)
    (sa sb : string) (a b : F64.t) (e : error) (d : string) (p : Processor) :
  contains_char ":" sa = false -> contains_char ":" sb = false ->
  ParseFloat sa = (a, None) -> ParseFloat sb = (b, Some e) ->
  parseAspect ParseFloat (ratio_string sa sb) = Ret (F64.zero, Some e) /\
  WithAspect ParseFloat (ratio_string sa sb) p =
    Ret (set_aspect F64.zero p, Some e) /\
  New d [WithAspect ParseFloat (ratio_string sa sb)] = Ret (None, Some e).
Proof.
  intros Ha Hb Va Vb.
  assert (H : parseAspect ParseFloat (ratio_string sa sb) =
              Ret (F64.zero, Some e)).
  { rewrite (parseAspect_pieces ParseFloat _ sa sb []), Va, Vb;
      [reflexivity|]. apply Split_pair; assumption. }
  split; [exact H|]. unfold New, WithAspect. simpl. rewrite H.
  split; reflexivity.
Qed.

Lemma parseAspect_second_number_error_witness :
  New "processed" [WithAspect decimal "16:nine"] =
  Ret (None, Some (ErrSyntax "nine")).
Proof.
  exact (proj2 (proj2
    (parseAspect_second_number_error decimal "16" "nine" (F64.Fin 16)
       F64.zero (ErrSyntax "nine") "processed" zero_Processor
       eq_refl eq_refl eq_refl eq_refl))).
Defined.

(** A string without a colon is never accepted as a ratio: [parseAspect]
    returns the parse error of the whole string, or panics when the
    string is a number; it never returns a value without an error. *)
Theorem parseAspect_without_colon
    (ParseFloat : string -> F64.t * option error) (s : string) :
  contains_char ":" s = false ->
  parseAspect ParseFloat s =
  match ParseFloat s with
  | (_, Some e) => Ret (F64.zero, Some e)
  | (_, None) => Panic "index out of range"
  end.
Proof.
  intros Hs. unfold parseAspect. rewrite (Split_without_sep _ _ Hs). simpl.
  destruct (ParseFloat s) as [a [e|]]; reflexivity.
Qed.

Lemma parseAspect_without_colon_witness :
  parseAspect decimal "wide" = Ret (F64.zero, Some (ErrSyntax "wide")).
Proof. exact (parseAspect_without_colon decimal "wide" eq_refl). Defined.



(** ** More on the geometry *)

Lemma inject_Z_nonneg z : 0 <= z -> (0 <= inject_Z z)%Q.
Proof.
  intros H. change (inject_Z 0 <= inject_Z z)%Q. rewrite <- Zle_Qle. exact H.
Qed.

Lemma padded_extent_range (w n : Z) :
  0 <= w <= 2 ^ 53 -> 0 <= n <= 1000 ->
  (0 <= inject_Z w + inject_Z w * (inject_Z n / inject_Z 100))%Q /\
  (inject_Z w + inject_Z w * (inject_Z n / inject_Z 100)
   <= inject_Z Int64.max_int)%Q /\
  (inject_Z w <= inject_Z w + inject_Z w * (inject_Z n / inject_Z 100))%Q.
Proof.
  intros [Hw0 Hw1] [Hn0 Hn1].
  pose proof (inject_Z_nonneg w Hw0) as Qw0.
  pose proof (inject_Z_nonneg n Hn0) as Qn0.
  assert (Qw1 : (inject_Z w <= inject_Z (2 ^ 53))%Q)
    by (rewrite <- Zle_Qle; exact Hw1).
  assert (Qn1 : (inject_Z n <= inject_Z 1000)%Q)
    by (rewrite <- Zle_Qle; exact Hn1).
  assert (Hq0 : (0 <= inject_Z n / inject_Z 100)%Q).
  { apply Qle_shift_div_l; [reflexivity|]. lra. }
  assert (Hq1 : (inject_Z n / inject_Z 100 <= 10)%Q).
  { apply Qle_shift_div_r; [reflexivity|].
    change (10 * inject_Z 100)%Q with (inject_Z 1000). exact Qn1. }
  assert (Hp0 : (0 <= inject_Z w * (inject_Z n / inject_Z 100))%Q)
    by (apply Qmult_le_0_compat; assumption).
  assert (Hp1 : (inject_Z w * (inject_Z n / inject_Z 100)
                 <= inject_Z w * 10)%Q).
  { rewrite !(Qmult_comm (inject_Z w)).
    apply Qmult_le_compat_r; assumption. }
  split; [lra|]. split; [|lra].
  apply Qle_trans with (inject_Z (2 ^ 53) * 11)%Q; [lra|].
  vm_compute. discriminate.
Qed.

(** A non-negative padding percentage never shrinks the canvas, and the
    percentage 0 (the default) leaves it as it is: for a canvas of
    w x h, [padding] with the fraction [WithPadding n] stores returns a
    rectangle at the origin that is at least w wide and h high, and the
    same rectangle for n = 0. *)
Theorem padding_never_shrinks (indefinite w h n : Z) (p : Processor) :
  0 <= w <= 2 ^ 53 -> 0 <= h <= 2 ^ 53 -> 0 <= n <= 1000 ->
  forall p', WithPadding n p = Ret (p', None) ->
  canvas_contains (bounds w h)
    (padding indefinite (bounds w h) (padding_frac p')) /\
  Min (padding indefinite (bounds w h) (padding_frac p')) =
    {| X := 0; Y := 0 |} /\
  (n = 0 -> padding indefinite (bounds w h) (padding_frac p') = bounds w h).
Proof.
  intros Hw Hh Hn p' Hp'. injection Hp' as <-. cbn [padding_frac set_padding].
  destruct (padded_extent_range w n Hw Hn) as (Hw0 & Hw1 & Hw2).
  destruct (padded_extent_range h n Hh Hn) as (Hh0 & Hh1 & Hh2).
  assert (Hb : bounds w h =
                {| Min := {| X := 0; Y := 0 |}; Max := {| X := w; Y := h |} |})
    by (apply Rect_origin; lia).
  rewrite !Hb. unfold padding. cbn [X Y Max].
  unfold F64.of_int.
  cbn [F64.mul F64.add].
  rewrite (to_int_nonneg _ _ Hw0 Hw1), (to_int_nonneg _ _ Hh0 Hh1).
  pose proof (proj2 (le_Qfloor_iff w _) Hw2) as Fw.
  pose proof (proj2 (le_Qfloor_iff h _) Hh2) as Fh.
  rewrite Rect_origin by lia. unfold canvas_contains. cbn [X Y Max Min].
  split; [split; assumption|]. split; [reflexivity|].
  intros ->.
  assert (E : forall z, Qfloor (inject_Z z + inject_Z z *
                                 (inject_Z 0 / inject_Z 100)) = z).
  { intros z. rewrite <- (Qfloor_Z z) at 3. apply Qfloor_comp.
    unfold Qdiv. change (inject_Z 0) with 0%Q. ring. }
  rewrite !E. reflexivity.
Qed.

Lemma padding_never_shrinks_witness :
  padding 0 (bounds 1000 500)
    (F64.div (F64.of_int 10) (F64.of_int 100)) = Rect 0 0 1100 550 /\
  padding 0 (bounds 1000 500)
    (F64.div (F64.of_int 0) (F64.of_int 100)) = bounds 1000 500.
Proof.
  split; [reflexivity|].
  refine (proj2 (proj2 (padding_never_shrinks 0 1000 500 0 zero_Processor
                          _ _ _ _ eq_refl)) eq_refl).
  - vm_compute. split; discriminate.
  - vm_compute. split; discriminate.
  - lia.
Defined.

(** When the canvas is at least as large as the source, the offset
    computed by [centered] places the source inside the canvas, and the
    margins on opposite sides differ by at most one pixel. *)
Theorem centered_offset_inside (sw sh dw dh : Z) :
  0 <= sw <= dw -> dw <= 2 ^ 61 -> 0 <= sh <= dh -> dh <= 2 ^ 61 ->
  let r := centered (bounds sw sh) (bounds dw dh) in
  0 <= X (Min r) /\ X (Min r) + sw <= dw /\
  0 <= Y (Min r) /\ Y (Min r) + sh <= dh /\
  -1 <= (dw - (X (Min r) + sw)) - X (Min r) <= 1 /\
  -1 <= (dh - (Y (Min r) + sh)) - Y (Min r) <= 1.
Proof.
  intros Hsw Hdw Hsh Hdh r. subst r.
  rewrite (centered_corners sw sh dw dh) by lia. cbn [X Y Min].
  rewrite !Z.quot_div_nonneg by lia. Z.div_mod_to_equations. lia.
Qed.

Lemma centered_offset_inside_witness :
  X (Min (centered (bounds 1001 500) (bounds 1920 1080))) = 460 /\
  Y (Min (centered (bounds 1001 500) (bounds 1920 1080))) = 290 /\
  460 + 1001 <= 1920.
Proof.
  pose proof (centered_offset_inside 1001 500 1920 1080
                ltac:(lia) ltac:(lia) ltac:(lia) ltac:(lia))
    as (_ & H & _).
  split; [reflexivity|]. split; [reflexivity|]. exact H.
Defined.

(** The rectangle [centered] returns is larger than the source, but it
    never cuts the picture: every pixel of the canvas that lies under the
    source placed at the offset is inside the rectangle. *)
Theorem centered_covers_source (sw sh dw dh x y : Z) :
  0 <= sw <= 2 ^ 61 -> 0 <= sh <= 2 ^ 61 ->
  0 <= dw <= 2 ^ 61 -> 0 <= dh <= 2 ^ 61 ->
  let r := centered (bounds sw sh) (bounds dw dh) in
  0 <= x < dw -> 0 <= y < dh ->
  X (Min r) <= x < X (Min r) + sw -> Y (Min r) <= y < Y (Min r) + sh ->
  X (Min r) <= x < X (Max r) /\ Y (Min r) <= y < Y (Max r).
Proof.
  intros Hsw Hsh Hdw Hdh r. subst r.
  rewrite (centered_corners sw sh dw dh) by lia. cbn [X Y Min Max].
  rewrite !Z.quot_div_nonneg by lia. intros Hx Hy Hsx Hsy.
  Z.div_mod_to_equations. lia.
Qed.

Lemma centered_covers_source_witness :
  let r := centered (bounds 1000 500) (bounds 1000 1000) in
  X (Min r) <= 999 < X (Max r) /\ Y (Min r) <= 749 < Y (Max r).
Proof.
  apply (centered_covers_source 1000 500 1000 1000 999 749);
    try lia; vm_compute; (split; [discriminate | reflexivity]).
Defined.

(** ** The geometry of the earlier revision *)

(** In the earlier revision the canvas has the width of the source and
    a height of at most that width, whatever the orientation of the
    source: with a factor g held by the processor, 0 <= g <= 1 as
    [Earlier.parseAspect] returns it, the canvas is at the origin, sw wide,
    and its height is sw * g brought to an integer, between floor(sw * g)
    and ceiling(sw * g).  A source higher than wide is therefore never
    contained in its canvas. *)
Theorem Earlier_canvas_is_landscape
    (indefinite sw sh : Z) (g : Q) (p : Earlier.Processor) :
  0 < sw <= 2 ^ 53 -> 0 < sh <= 2 ^ 53 ->
  (0 <= g <= 1)%Q -> F64.representable g ->
  Earlier.aspect_ratio p = F64.Fin g ->
  let db := fst (Earlier.layout indefinite p (bounds sw sh)) in
  Min db = {| X := 0; Y := 0 |} /\
  X (Max db) = sw /\
  Qfloor (inject_Z sw * g) <= Y (Max db) <= Qceiling (inject_Z sw * g) /\
  0 <= Y (Max db) <= sw /\
  (sw < sh -> ~ canvas_contains (bounds sw sh) db).
Proof.
  intros Hsw Hsh [Hg0 Hg1] _ Hp db. subst db.
  assert (Hmax : 2 ^ 53 <= Int64.max_int) by (vm_compute; discriminate).
  pose proof (inject_Z_nonneg sw ltac:(lia)) as Qsw.
  assert (Hprod0 : (0 <= inject_Z sw * g)%Q)
    by (apply Qmult_le_0_compat; assumption).
  assert (Hprod1 : (inject_Z sw * g <= inject_Z sw)%Q).
  { rewrite <- (Qmult_1_r (inject_Z sw)) at 2.
    rewrite !(Qmult_comm (inject_Z sw)).
    apply Qmult_le_compat_r; assumption. }
  assert (Hfit : (inject_Z sw * g <= inject_Z Int64.max_int)%Q).
  { apply Qle_trans with (inject_Z sw); [exact Hprod1|].
    rewrite <- Zle_Qle. lia. }
  pose proof (Qfloor_nonneg _ Hprod0) as F0.
  assert (F1 : Qfloor (inject_Z sw * g) <= sw).
  { rewrite <- (Qfloor_Z sw) at 2. apply Qfloor_resp_le. exact Hprod1. }
  pose proof (Qfloor_le_ceiling (inject_Z sw * g)) as Fc.
  unfold Earlier.layout. cbn [fst].
  rewrite (bounds_Max sw sh) by lia. cbn [X Y]. rewrite Hp.
  unfold F64.of_int. cbn [F64.mul].
  rewrite (to_int_nonneg _ _ Hprod0 Hfit).
  rewrite Rect_origin by lia. cbn [X Y Min Max].
  split; [reflexivity|]. split; [reflexivity|]. split; [lia|].
  split; [lia|].
  intros Hlt [_ Hc]. unfold canvas_contains in *.
  rewrite (bounds_Max sw sh) in Hc by lia. cbn [X Y Max] in Hc. lia.
Qed.

Lemma Earlier_canvas_is_landscape_witness :
  let db :=
    fst (Earlier.layout 0
           {| Earlier.dir := "processed"; Earlier.white := false;
              Earlier.aspect_ratio := F64.Fin (9 / 16);
              Earlier.quality := 90; Earlier.concurrency := 1;
              Earlier.force := false |}
           (bounds 4000 6000)) in
  X (Max db) = 4000 /\ 0 <= Y (Max db) <= 4000 /\
  ~ canvas_contains (bounds 4000 6000) db.
Proof.
  intros db. subst db.
  destruct (Earlier_canvas_is_landscape 0 4000 6000 (9 / 16)
              {| Earlier.dir := "processed"; Earlier.white := false;
                 Earlier.aspect_ratio := F64.Fin (9 / 16);
                 Earlier.quality := 90; Earlier.concurrency := 1;
                 Earlier.force := false |})
    as (_ & Hx & _ & Hy & Hn).
  - vm_compute. split; [reflexivity | discriminate].
  - vm_compute. split; [reflexivity | discriminate].
  - vm_compute. split; discriminate.
  - exists 9, (-4). split; [reflexivity|].
    split; [split; discriminate|]. reflexivity.
  - reflexivity.
  - split; [exact Hx|]. split; [exact Hy|]. apply Hn. lia.
Defined.

(** ** More on the per-item transform *)

(** [process] returns nil only for an item it skipped, or for an item it
    opened and decoded and whose output was rendered and written without
    error; an item that cannot be opened or decoded is reported with the
    wrapped error. *)
Theorem process_success_iff
    (indefinite : Z) (Stat : string -> stat_result)
    (Join : string -> string -> string) (Open : string -> option error)
    (Decode : string -> Rectangle + error)
    (render : Processor -> Rectangle -> Rectangle -> Rectangle -> string ->
              outcome (option error))
    (p : Processor) (path : string) :
  (process_result indefinite Stat Join Open Decode render p path = Ret None
   <->
   skipped indefinite Stat Join Open Decode render p path \/
   (processed indefinite Stat Join Open Decode render p path /\
    Open path = None /\
    exists sb, Decode path = inl sb /\
      render p sb (fst (layout indefinite p sb))
        (snd (layout indefinite p sb)) (Join (dir p) path) = Ret None)) /\
  (processed indefinite Stat Join Open Decode render p path ->
   forall e, Open path = Some e ->
   process_result indefinite Stat Join Open Decode render p path =
   Ret (Some (Wrapped "opening" e))) /\
  (processed indefinite Stat Join Open Decode render p path ->
   forall e, Open path = None -> Decode path = inr e ->
   process_result indefinite Stat Join Open Decode render p path =
   Ret (Some (Wrapped "decoding" e))).
Proof.
  unfold process_result, skipped, processed, process.
  destruct (unmodified Stat path (Join (dir p) path)) as [u|why];
    [|repeat split; try (intros H; discriminate H);
      intros [H|[H _]]; discriminate H].
  destruct (u && negb (force p)); cbn [snd].
  - split; [split; [intros _; left; reflexivity | reflexivity]|].
    split; intros H; discriminate H.
  - unfold pipeline. split; [split|split].
    + intros H. right. split; [reflexivity|].
      destruct (Open path) as [e|]; [discriminate H|].
      split; [reflexivity|].
      destruct (Decode path) as [sb|e]; [|discriminate H].
      exists sb. split; [reflexivity|].
      destruct (layout indefinite p sb) as [db dr]. exact H.
    + intros [H|(_ & Ho & sb & Hd & Hr)]; [discriminate H|].
      rewrite Ho, Hd. destruct (layout indefinite p sb) as [db dr].
      exact Hr.
    + intros _ e Ho. rewrite Ho. reflexivity.
    + intros _ e Ho Hd. rewrite Ho, Hd. reflexivity.
Qed.

(** ** More on the coordinator *)

Section CoordinatorResults.
Variable transform : string -> outcome (option error).

(** The error kept by the group is written once. *)
Lemma err_stable_step s e s' x :
  step transform s e = Some s' -> err s = Some x -> err s' = Some x.
Proof.
  intros Hstep Hx. step_cases Hstep; cbn [err]; try assumption.
  rewrite Hx. reflexivity.
Qed.

Lemma err_stable_run evs s s' x :
  run transform evs s = Some s' -> err s = Some x -> err s' = Some x.
Proof.
  revert s. induction evs as [|e evs IH]; intros s Hrun Hx; simpl in Hrun.
  - injection Hrun as <-. exact Hx.
  - destruct (step transform s e) as [s1|] eqn:E; [|discriminate].
    exact (IH s1 Hrun (err_stable_step _ _ _ _ E Hx)).
Qed.

Lemma task_result_ok_mono rec rec' t :
  (rec <> None -> rec' <> None) ->
  task_result_ok transform rec t -> task_result_ok transform rec' t.
Proof.
  unfold task_result_ok. intros Hm. destruct (ph t); try exact (fun H => H).
  intros (r & Hr & Hrec). exists r. split; [exact Hr|]. auto.
Qed.

Lemma In_insert_new (l : list task) i told tnew :
  l !! i = Some told -> In tnew (<[i := tnew]> l).
Proof.
  revert i. induction l as [|x l IH]; intros [|i] H; try discriminate.
  - left. reflexivity.
  - right. exact (IH i H).
Qed.

Lemma In_insert_other (l : list task) i told tnew t :
  l !! i = Some told -> In t l -> t <> told -> In t (<[i := tnew]> l).
Proof.
  revert i. induction l as [|x l IH]; intros [|i] H Hin Hne;
    try discriminate.
  - injection H as ->. destruct Hin as [->|Hin]; [congruence|].
    right. exact Hin.
  - destruct Hin as [->|Hin]; [left; reflexivity|].
    right. exact (IH i H Hin Hne).
Qed.

Lemma result_inv_init n images : result_inv transform (init n images).
Proof.
  split; [constructor|]. intros e H. discriminate H.
Qed.

Lemma result_inv_step s e s' :
  result_inv transform s -> step transform s e = Some s' ->
  result_inv transform s'.
Proof.
  intros [Hall Herr] Hstep. unfold result_inv.
  assert (Hkeep : forall i told tnew,
    tasks s !! i = Some told -> ph told <> Done ->
    forall x, err s = Some x ->
    exists tk, In tk (<[i := tnew]> (tasks s)) /\ ph tk = Done /\
               transform (item tk) = Ret (Some x)).
  { intros i told tnew Hi Hnd x Hx.
    destruct (Herr x Hx) as (tk & Hin & Hd & Ht).
    exists tk. split; [|split; assumption].
    apply (In_insert_other _ _ told); [exact Hi|exact Hin|].
    intros ->. exact (Hnd Hd). }
  step_cases Hstep; cbn [tasks err];
    try (split; assumption);
    try match goal with
      | H : tasks s !! _ = Some _ |- _ =>
          pose proof (proj1 (Forall_lookup _ _) Hall _ _ H) as Hold;
          unfold task_result_ok in Hold; cbn [ph item] in Hold;
          pose proof (fun tnew => Hkeep _ _ tnew H) as Hkeep';
          cbn [ph] in Hkeep'
      end.
  - (* Admit *)
    split.
    + apply Forall_app. split; [exact Hall|].
      constructor; [exact I|constructor].
    + intros x Hx. destruct (Herr x Hx) as (tk & Hin & Hd & Ht).
      exists tk. split; [apply in_or_app; left; exact Hin|].
      split; assumption.
  - (* Start *)
    split; [apply Forall_insert; [exact Hall|exact I]|].
    apply Hkeep'. discriminate.
  - (* Return *)
    split; [apply Forall_insert; [exact Hall|]|].
    + unfold task_result_ok. cbn [ph item]. assumption.
    + apply Hkeep'. discriminate.
  - (* Release *)
    split; [apply Forall_insert; [exact Hall|exact Hold]|].
    apply Hkeep'. discriminate.
  - (* Finish *)
    split.
    + apply Forall_insert.
      * eapply Forall_impl; [exact Hall|]. intros tk.
        apply task_result_ok_mono. destruct (err s); congruence.
      * unfold task_result_ok. cbn [ph item].
        eexists. split; [exact Hold|]. destruct (err s); congruence.
    + intros x Hx. destruct (err s) as [e0|] eqn:Ee.
      * injection Hx as <-. apply Hkeep'; [discriminate|reflexivity].
      * subst. eexists. split; [eapply In_insert_new; eassumption|].
        split; [reflexivity|exact Hold].
Qed.

Lemma result_inv_run evs s s' :
  result_inv transform s -> run transform evs s = Some s' ->
  result_inv transform s'.
Proof.
  revert s. induction evs as [|e evs IH]; intros s Hinv Hrun; simpl in Hrun.
  - injection Hrun as <-. exact Hinv.
  - destruct (step transform s e) as [s1|] eqn:E; [|discriminate].
    exact (IH s1 (result_inv_step _ _ _ Hinv E) Hrun).
Qed.
End CoordinatorResults.

Section CoordinatorMore.
Variable transform : string -> outcome (option error).

(** The units held are the goroutines between admission and release,
    whatever the capacity. *)
Lemma cur_holders_step s e s' :
  cur s = holders s -> step transform s e = Some s' -> cur s' = holders s'.
Proof.
  intros Hcur Hstep. unfold holders in *.
  step_cases Hstep; simpl;
    rewrite ?count_app;
    try match goal with
      | E : tasks s !! _ = Some _ |- _ =>
          rewrite (count_insert _ _ _ _ _ E)
      end;
    simpl; lia.
Qed.

Lemma cur_holders_run evs s s' :
  cur s = holders s -> run transform evs s = Some s' -> cur s' = holders s'.
Proof.
  revert s. induction evs as [|e evs IH]; intros s Hinv Hrun; simpl in Hrun.
  - injection Hrun as <-. exact Hinv.
  - destruct (step transform s e) as [s1|] eqn:E; [|discriminate].
    exact (IH s1 (cur_holders_step _ _ _ Hinv E) Hrun).
Qed.

Lemma holders_all_done l :
  Forall (fun t => ph t = Done) l -> count is_holding l = 0.
Proof.
  induction 1 as [|t l Ht _ IH]; simpl; [reflexivity|].
  unfold is_holding at 1. rewrite Ht. exact IH.
Qed.

Lemma idle_step n images s e s' :
  images = [] \/ n <= 0 ->
  idle n images s -> step transform s e = Some s' -> idle n images s'.
Proof.
  intros Hno (Hsize & Htasks & Hcur & Hwg & Herr & Hpend & Hwait & Hexit)
    Hstep.
  unfold idle.
  step_cases Hstep; cbn [size tasks cur wg err pending main ctx_done];
    try match goal with
      | E : tasks s !! _ = Some _ |- _ =>
          rewrite Htasks in E; discriminate E
      end;
    try match goal with
      | E : (_ <=? _) = true |- _ => apply Z.leb_le in E
      end;
    repeat match goal with
      | H : main s = _ |- _ => rewrite H in *
      end.
  - (* Cancel *)
    repeat apply conj; try assumption. intros r Hr.
    destruct (Hexit r Hr) as [H|(H1 & H2 & _)]; [left; exact H|].
    right. repeat apply conj; try assumption. reflexivity.
  - (* Admit *)
    exfalso. destruct Hno as [->|Hn]; [congruence|lia].
  - (* AcquireFail *)
    repeat apply conj; try assumption; try discriminate.
    intros r Hr. injection Hr as <-. right.
    repeat apply conj; try reflexivity. congruence.
  - (* LoopExit *)
    repeat apply conj; try assumption; congruence.
  - (* WaitReturn *)
    repeat apply conj; try assumption; try discriminate.
    intros r Hr. injection Hr as <-. left.
    split; [apply Hwait; reflexivity | exact Herr].
Qed.

Lemma idle_run n images evs s s' :
  images = [] \/ n <= 0 ->
  idle n images s -> run transform evs s = Some s' -> idle n images s'.
Proof.
  intros Hno. revert s.
  induction evs as [|e evs IH]; intros s Hinv Hrun; simpl in Hrun.
  - injection Hrun as <-. exact Hinv.
  - destruct (step transform s e) as [s1|] eqn:E; [|discriminate].
    exact (IH s1 (idle_step _ _ _ _ _ Hno Hinv E) Hrun).
Qed.

Lemma idle_init n images : idle n images (init n images).
Proof.
  unfold idle, init. simpl. repeat split; try discriminate.
Qed.
End CoordinatorMore.

Section Sequential.
Variable transform : string -> outcome (option error).

Lemma lookup_snoc (l : list task) t : (l ++ [t]) !! length l = Some t.
Proof. induction l as [|x l IH]; simpl; [reflexivity|exact IH]. Qed.

Lemma insert_snoc (l : list task) t t' :
  <[length l := t']> (l ++ [t]) = l ++ [t'].
Proof.
  induction l as [|x l IH]; simpl; [reflexivity|].
  f_equal. exact IH.
Qed.

(** One item of the sequential schedule. *)
Lemma one_item_run n finished x rest e r :
  1 <= n -> transform x = Ret r ->
  run transform
    [Admit; Start (length finished); Return (length finished);
     Release (length finished); Finish (length finished)]
    (between_items n finished (x :: rest) e) =
  Some (between_items n (finished ++ [x]) rest
          (match e with Some e' => Some e' | None => r end)).
Proof.
  intros Hn Hx. unfold between_items. rewrite map_app. cbn [map].
  set (l := map (fun path => {| item := path; ph := Done |}) finished).
  assert (Hl : length finished = length l)
    by (unfold l; rewrite length_map; reflexivity).
  rewrite Hl.
  cbn [run]. unfold step at 1. cbn [crashed main pending size cur].
  replace (1 <=? n - 0) with true by (symmetry; apply Z.leb_le; lia).
  unfold step at 1. cbn [crashed tasks set_task size cur pending wg err
                          main ctx_done].
  rewrite lookup_snoc. unfold set_task. cbn [tasks size cur pending wg err main ctx_done crashed].
  rewrite insert_snoc.
  unfold step at 1. cbn [crashed tasks set_task size cur pending wg err
                          main ctx_done].
  rewrite lookup_snoc, Hx. unfold set_task. cbn [tasks size cur pending wg err main ctx_done crashed].
  rewrite insert_snoc.
  unfold step at 1. cbn [crashed tasks set_task size cur pending wg err
                          main ctx_done].
  rewrite lookup_snoc, insert_snoc.
  unfold step at 1. cbn [crashed tasks set_task size cur pending wg err
                          main ctx_done].
  rewrite lookup_snoc, insert_snoc.
  reflexivity.
Qed.

Lemma sequential_run n : forall rest finished e,
  1 <= n ->
  (forall path, In path rest -> returns (transform path) = true) ->
  run transform (sequential_from (length finished) (length rest))
    (between_items n finished rest e) =
  Some {| size := n; cur := 0; pending := [];
          tasks := map (fun path => {| item := path; ph := Done |})
                     (finished ++ rest);
          wg := 0;
          err := match e with
                 | Some e' => Some e'
                 | None => first_failure transform rest
                 end;
          main := Exited (match e with
                          | Some e' => Some e'
                          | None => first_failure transform rest
                          end);
          ctx_done := false; crashed := false |}.
Proof.
  induction rest as [|x rest IH]; intros finished e Hn Hret.
  - rewrite app_nil_r. destruct e; reflexivity.
  - cbn [length sequential_from].
    destruct (transform x) as [r|why] eqn:Hx.
    + rewrite run_app, (one_item_run n finished x rest e r Hn Hx).
      replace (S (length finished)) with (length (finished ++ [x]))
        by (rewrite length_app; simpl; lia).
      rewrite IH; [|exact Hn|intros path Hin; apply Hret; right; exact Hin].
      rewrite <- app_assoc. cbn [app first_failure]. rewrite Hx.
      destruct e as [e'|]; [reflexivity|]. destruct r; reflexivity.
    + specialize (Hret x (or_introl eq_refl)). rewrite Hx in Hret.
      discriminate Hret.
Qed.
End Sequential.

(** ** What [Process] returns *)

Section ProcessResults.
Variable indefinite : Z.
Variable Stat : string -> stat_result.
Variable Join : string -> string -> string.
Variable Open : string -> option error.
Variable Decode : string -> Rectangle + error.
Variable render :
  Processor -> Rectangle -> Rectangle -> Rectangle -> string ->
  outcome (option error).

Abbreviation Process' := (Process indefinite Stat Join Open Decode render).
Abbreviation result' :=
  (process_result indefinite Stat Join Open Decode render).

(** When [Process] returns without the context being cancelled, the error
    it returns is the error [p.process] returned for one of the items, and
    it returns nil exactly when [p.process] returned nil for every item. *)
Theorem Process_returns_an_item_error
    (p : Processor) (images : list string) (schedule : list event)
    (s : state) (r : option error) :
  Process' p images schedule = Some s ->
  main s = Exited r -> ctx_done s = false ->
  (forall e, r = Some e ->
     exists path, In path images /\ result' p path = Ret (Some e)) /\
  (r = None <-> forall path, In path images -> result' p path = Ret None).
Proof.
  intros Hrun Hr Hdone. unfold Process in Hrun.
  pose proof (loop_inv_run _ _ _ _ _ (loop_inv_init _ _) Hrun)
    as (Hitems & Hwg & _ & Hexit).
  pose proof (result_inv_run _ _ _ _ (result_inv_init _ _ _) Hrun)
    as (Hall & Herr).
  destruct (Hexit r Hr Hdone) as (Hp & _ & ->).
  rewrite Hp, app_nil_r in Hitems.
  assert (Hprov : forall e, err s = Some e ->
            exists path, In path images /\ result' p path = Ret (Some e)).
  { intros e He. destruct (Herr e He) as (t & Hin & _ & Ht).
    exists (item t). split; [|exact Ht].
    rewrite <- Hitems. apply in_map. exact Hin. }
  split; [exact Hprov|]. split.
  - intros Hnone path Hin. rewrite <- Hitems in Hin.
    apply in_map_iff in Hin as (t & <- & Hin).
    pose proof (proj1 (Forall_forall _ _) Hall t) as Ht.
    assert (Hd : ph t = Done).
    { pose proof (all_done (tasks s)) as Hd.
      destruct (Hexit (err s) Hr Hdone) as (_ & H0 & _).
      rewrite Hwg in H0.
      exact (proj1 (Forall_forall _ _) (Hd H0) t
               (proj2 (list_elem_of_In _ _) Hin)). }
    specialize (Ht (proj2 (list_elem_of_In _ _) Hin)).
    unfold task_result_ok in Ht. rewrite Hd in Ht.
    destruct Ht as (r & Hr' & Hrec). rewrite Hr'.
    destruct r as [e|]; [|reflexivity].
    exfalso. apply Hrec; [discriminate|exact Hnone].
  - intros Hok. destruct (err s) as [e|] eqn:He; [|reflexivity].
    destruct (Hprov e eq_refl) as (path & Hin & Hpath).
    rewrite (Hok path Hin) in Hpath. discriminate Hpath.
Qed.

(** The group keeps the first error handed to it: an error recorded in
    some state of a run is still the recorded one in every later state,
    and it is what [Process] returns. *)
Theorem Process_keeps_first_error
    (p : Processor) (images : list string) (schedule1 schedule2 : list event)
    (s1 s2 : state) (e : error) :
  Process' p images schedule1 = Some s1 -> err s1 = Some e ->
  run (result' p) schedule2 s1 = Some s2 ->
  err s2 = Some e /\
  (forall r, main s2 = Exited r -> ctx_done s2 = false -> r = Some e).
Proof.
  intros H1 He H2.
  pose proof (err_stable_run _ _ _ _ _ H2 He) as He2.
  split; [exact He2|]. intros r Hr Hdone.
  assert (H12 : Process' p images (schedule1 ++ schedule2) = Some s2).
  { unfold Process in *. rewrite run_app, H1. exact H2. }
  unfold Process in H12.
  pose proof (loop_inv_run _ _ _ _ _ (loop_inv_init _ _) H12)
    as (_ & _ & _ & Hexit).
  destruct (Hexit r Hr Hdone) as (_ & _ & ->). exact He2.
Qed.

(** A normal return leaves nothing behind: when [Process] returns without
    the context being cancelled, every unit of the semaphore has been
    released and no goroutine is inside [p.process]. *)
Theorem Process_returns_drained
    (p : Processor) (images : list string) (schedule : list event)
    (s : state) (r : option error) :
  Process' p images schedule = Some s ->
  main s = Exited r -> ctx_done s = false ->
  cur s = 0 /\ holders s = 0 /\ running s = 0 /\ wg s = 0.
Proof.
  intros Hrun Hr Hdone. unfold Process in Hrun.
  pose proof (loop_inv_run _ _ _ _ _ (loop_inv_init _ _) Hrun)
    as (_ & Hwg & _ & Hexit).
  destruct (Hexit r Hr Hdone) as (_ & H0 & _).
  pose proof (cur_holders_run _ _ (init (concurrency p) images) _
                eq_refl Hrun) as Hcur.
  assert (Hh : holders s = 0).
  { apply holders_all_done. apply all_done. lia. }
  pose proof (running_le_holders s).
  pose proof (count_nonneg is_running (tasks s)). unfold running in *.
  repeat split; lia.
Qed.

(** On cancellation [Process] returns the error of the context without
    waiting for the goroutines in flight: with two items or more and a
    ceiling of at least 1, it can return while the first item is still
    inside [p.process], leaving the other items pending. *)
Theorem Process_cancel_does_not_wait
    (p : Processor) (a b : string) (rest : list string) :
  1 <= concurrency p ->
  exists s,
    Process' p (a :: b :: rest) [Admit; Start 0; Cancel; AcquireFail] =
      Some s /\
    main s = Exited (Some ErrCanceled) /\
    running s = 1 /\ cur s = 1 /\ pending s = b :: rest.
Proof.
  intros Hn. unfold Process, init. cbn [run].
  unfold step at 1. cbn [crashed main pending size cur].
  replace (1 <=? concurrency p - 0) with true
    by (symmetry; apply Z.leb_le; lia).
  eexists. split; [reflexivity|]. repeat split.
Qed.

(** A processor whose concurrency is zero or negative admits nothing:
    [New] accepts such a value, and [Process] then starts no item at all,
    holds no unit, and can return only through a cancelled context, with
    the error of the context (or at once, when the list is empty). *)
Theorem Process_without_capacity
    (p : Processor) (images : list string) (schedule : list event)
    (s : state) :
  concurrency p <= 0 ->
  Process' p images schedule = Some s ->
  tasks s = [] /\ cur s = 0 /\ pending s = images /\
  (images <> [] ->
   forall r, main s = Exited r ->
             r = Some ErrCanceled /\ ctx_done s = true).
Proof.
  intros Hn Hrun. unfold Process in Hrun.
  pose proof (idle_run _ _ _ _ _ _ (or_intror Hn) (idle_init _ _) Hrun)
    as (_ & Ht & Hc & _ & _ & Hp & _ & Hexit).
  repeat split; try assumption;
    destruct (Hexit r H0) as [[H1 _]|(_ & H1 & H2)]; congruence.
Qed.

(** For an empty list [Process] starts nothing, takes no unit of the
    semaphore and returns nil, whatever the ceiling and whether or not
    the context is cancelled. *)
Theorem Process_empty_list
    (p : Processor) (schedule : list event) (s : state) :
  Process' p [] schedule = Some s ->
  tasks s = [] /\ cur s = 0 /\ (forall r, main s = Exited r -> r = None) /\
  exists s', Process' p [] [LoopExit; WaitReturn] = Some s' /\
             main s' = Exited None.
Proof.
  intros Hrun. unfold Process in Hrun.
  pose proof (idle_run _ _ _ _ _ _ (or_introl eq_refl) (idle_init _ _) Hrun)
    as (_ & Ht & Hc & _ & _ & _ & _ & Hexit).
  repeat split; try assumption.
  - intros r Hr. destruct (Hexit r Hr) as [[_ H]|(H & _)]; congruence.
  - eexists. split; reflexivity.
Qed.

(** Run one item at a time, [Process] terminates: when no transform
    panics and the ceiling is at least 1, the sequential schedule is
    enabled to its end, every item is run once, in the order of the list,
    and [Process] returns the error of the first item of the list that
    fails, or nil when none does. *)
Theorem Process_sequential
    (p : Processor) (images : list string) :
  1 <= concurrency p ->
  (forall path, In path images -> returns (result' p path) = true) ->
  exists s,
    Process' p images (sequential images) = Some s /\
    main s = Exited (first_failure (result' p) images) /\
    map item (tasks s) = images /\
    Forall (fun t => ph t = Done) (tasks s) /\
    cur s = 0 /\ pending s = [].
Proof.
  intros Hn Hret. unfold Process, sequential.
  pose proof (sequential_run (result' p) (concurrency p) images [] None
                Hn Hret) as H.
  cbn [length app] in H.
  change (between_items (concurrency p) [] images None)
    with (init (concurrency p) images) in H.
  eexists. split; [exact H|]. cbn [main tasks cur pending].
  split; [reflexivity|]. split.
  - rewrite map_map. cbn [item]. apply map_id.
  - split; [|split; reflexivity].
    apply Forall_forall. intros t Ht.
    apply list_elem_of_In, in_map_iff in Ht as (path & <- & _). reflexivity.
Qed.
End ProcessResults.

(** Evaluate a run whose result has been named. *)
Ltac reached Hrun :=
  let Hs := fresh "Hs" in
  pose proof Hrun as Hs; vm_compute in Hs; injection Hs as <-.

Lemma Process_returns_an_item_error_witness :
  exists path,
    In path ["a.jpg"; "b.jpg"] /\
    process_result 0 empty_fs join_slash open_ok decode_a_corrupt render_ok
      (cli_processor 1) path =
    Ret (Some (Wrapped "decoding" (ErrOther "image: unknown format"))).
Proof.
  destruct (Process 0 empty_fs join_slash open_ok decode_a_corrupt render_ok
              (cli_processor 1) ["a.jpg"; "b.jpg"]
              [Admit; Start 0; Return 0; Release 0; Finish 0;
               Admit; Start 1; Return 1; Release 1; Finish 1;
               LoopExit; WaitReturn]) as [s|] eqn:Hrun;
    [|vm_compute in Hrun; discriminate Hrun].
  reached Hrun.
  exact (proj1 (Process_returns_an_item_error _ _ _ _ _ _ _ _ _ _ _
                  Hrun eq_refl eq_refl) _ eq_refl).
Defined.

Lemma Process_keeps_first_error_witness :
  exists s2,
    Process 0 empty_fs join_slash open_ok decode_a_corrupt render_ok
      (cli_processor 1) ["a.jpg"; "b.jpg"]
      ([Admit; Start 0; Return 0; Release 0; Finish 0] ++
       [Admit; Start 1; Return 1; Release 1; Finish 1]) = Some s2 /\
    err s2 = Some (Wrapped "decoding" (ErrOther "image: unknown format")).
Proof.
  destruct (Process 0 empty_fs join_slash open_ok decode_a_corrupt render_ok
              (cli_processor 1) ["a.jpg"; "b.jpg"]
              [Admit; Start 0; Return 0; Release 0; Finish 0])
    as [s1|] eqn:H1; [|vm_compute in H1; discriminate H1].
  reached H1.
  match type of H1 with _ = Some ?s1 =>
    destruct (run (process_result 0 empty_fs join_slash open_ok
                     decode_a_corrupt render_ok (cli_processor 1))
                [Admit; Start 1; Return 1; Release 1; Finish 1] s1)
      as [s2|] eqn:H2; [|vm_compute in H2; discriminate H2]
  end.
  exists s2. split.
  - unfold Process in *. rewrite run_app, H1. exact H2.
  - exact (proj1 (Process_keeps_first_error _ _ _ _ _ _ _ _ _ _ _ _ _
                    H1 eq_refl H2)).
Defined.

Lemma Process_returns_drained_witness :
  exists s,
    Process 0 empty_fs join_slash open_ok decode_1000x500 render_ok
      (cli_processor 2) ["a.jpg"; "b.jpg"]
      [Admit; Admit; Start 1; Start 0; Return 1; Return 0; Release 0;
       Finish 0; Release 1; Finish 1; LoopExit; WaitReturn] = Some s /\
    main s = Exited None /\ cur s = 0.
Proof.
  destruct (Process 0 empty_fs join_slash open_ok decode_1000x500 render_ok
              (cli_processor 2) ["a.jpg"; "b.jpg"]
              [Admit; Admit; Start 1; Start 0; Return 1; Return 0; Release 0;
               Finish 0; Release 1; Finish 1; LoopExit; WaitReturn])
    as [s|] eqn:Hrun; [|vm_compute in Hrun; discriminate Hrun].
  reached Hrun. eexists. split; [reflexivity|]. split; [reflexivity|].
  exact (proj1 (Process_returns_drained _ _ _ _ _ _ _ _ _ _ _
                  Hrun eq_refl eq_refl)).
Defined.

Lemma Process_cancel_does_not_wait_witness :
  exists s,
    Process 0 empty_fs join_slash open_ok decode_1000x500 render_ok
      (cli_processor 2) ["a.jpg"; "b.jpg"; "c.jpg"]
      [Admit; Start 0; Cancel; AcquireFail] = Some s /\
    main s = Exited (Some ErrCanceled) /\ running s = 1.
Proof.
  destruct (Process_cancel_does_not_wait 0 empty_fs join_slash open_ok
              decode_1000x500 render_ok (cli_processor 2)
              "a.jpg" "b.jpg" ["c.jpg"])
    as (s & Hs & Hm & Hr & _).
  - vm_compute. discriminate.
  - exists s. split; [exact Hs|]. split; [exact Hm | exact Hr].
Defined.

Lemma Process_without_capacity_witness :
  exists s,
    Process 0 empty_fs join_slash open_ok decode_1000x500 render_ok
      (cli_processor 0) ["a.jpg"] [Cancel; AcquireFail] = Some s /\
    tasks s = [] /\ main s = Exited (Some ErrCanceled).
Proof.
  destruct (Process 0 empty_fs join_slash open_ok decode_1000x500 render_ok
              (cli_processor 0) ["a.jpg"] [Cancel; AcquireFail])
    as [s|] eqn:Hrun; [|vm_compute in Hrun; discriminate Hrun].
  reached Hrun. eexists. split; [reflexivity|].
  split; [|reflexivity].
  refine (proj1 (Process_without_capacity _ _ _ _ _ _ _ _ _ _ _ Hrun)).
  vm_compute. discriminate.
Defined.

Lemma Process_empty_list_witness :
  exists s,
    Process 0 empty_fs join_slash open_ok decode_1000x500 render_ok
      (cli_processor 8) [] [Cancel; LoopExit; WaitReturn] = Some s /\
    main s = Exited None /\ tasks s = [].
Proof.
  destruct (Process 0 empty_fs join_slash open_ok decode_1000x500 render_ok
              (cli_processor 8) [] [Cancel; LoopExit; WaitReturn])
    as [s|] eqn:Hrun; [|vm_compute in Hrun; discriminate Hrun].
  reached Hrun. eexists. split; [reflexivity|]. split; [reflexivity|].
  exact (proj1 (Process_empty_list _ _ _ _ _ _ _ _ _ Hrun)).
Defined.

Lemma Process_sequential_witness :
  exists s,
    Process 0 empty_fs join_slash open_ok decode_a_corrupt render_ok
      (cli_processor 1) ["a.jpg"; "b.jpg"]
      (sequential ["a.jpg"; "b.jpg"]) = Some s /\
    main s =
      Exited (Some (Wrapped "decoding" (ErrOther "image: unknown format"))).
Proof.
  destruct (Process_sequential 0 empty_fs join_slash open_ok decode_a_corrupt
              render_ok (cli_processor 1) ["a.jpg"; "b.jpg"])
    as (s & Hs & Hm & _).
  - vm_compute. discriminate.
  - intros path [<-|[<-|[]]]; reflexivity.
  - exists s. split; [exact Hs | exact Hm].
Defined.

(** ** Listing the images *)

Lemma list_ascii_app s1 s2 :
  list_ascii_of_string (String.append s1 s2) =
  list_ascii_of_string s1 ++ list_ascii_of_string s2.
Proof.
  induction s1 as [|c s1 IH]; simpl; [reflexivity|]. rewrite IH. reflexivity.
Qed.

(** Scanning back over characters that are neither a dot nor a
    separator moves them to the suffix. *)
Lemma ext_scan_plain e : forall more suffix,
  contains_char "." e = false -> contains_char "/" e = false ->
  ext_scan (rev (list_ascii_of_string e) ++ more) suffix =
  ext_scan more (String.append e suffix).
Proof.
  induction e as [|c e IH]; intros more suffix Hdot Hsep; simpl in *;
    [reflexivity|].
  apply orb_false_iff in Hdot as [Hc1 Hdot].
  apply orb_false_iff in Hsep as [Hc2 Hsep].
  rewrite <- app_assoc. simpl. rewrite (IH _ _ Hdot Hsep). simpl.
  rewrite Hc2, Hc1. reflexivity.
Qed.

(** The extension of "stem.e" is ".e" when e has no dot and no
    separator; a name without a dot has no extension. *)
Lemma Ext_of_suffix stem e :
  contains_char "." e = false -> contains_char "/" e = false ->
  Ext (String.append stem (String "." e)) = String "." e.
Proof.
  intros Hdot Hsep. unfold Ext.
  rewrite list_ascii_app. simpl. rewrite rev_app_distr. simpl.
  rewrite <- app_assoc. simpl.
  rewrite (ext_scan_plain e _ _ Hdot Hsep). simpl.
  assert (H : forall s, String.append s "" = s).
  { induction s as [|c s IH]; [reflexivity|].
    change (String c (String.append s "") = String c s). f_equal. exact IH. }
  rewrite H. reflexivity.
Qed.

Section ListImages.
Variable ReadDir : string -> list string + error.
Variable Join : string -> string -> string.
Variable ToLower : string -> string.

Lemma listImages_loop d files : forall acc,
  fold_left
    (fun images name =>
       let ext := ToLower (Ext name) in
       if image_ext ext then images ++ [Join d name] else images)
    files acc =
  acc ++ map (Join d)
           (List.filter (fun name => image_ext (ToLower (Ext name))) files).
Proof.
  induction files as [|name files IH]; intros acc; simpl.
  - rewrite app_nil_r. reflexivity.
  - rewrite IH. destruct (image_ext (ToLower (Ext name))); simpl.
    + rewrite <- app_assoc. reflexivity.
    + reflexivity.
Qed.
End ListImages.

(** [listImages] returns the error of [ReadDir] and no path when the
    directory cannot be read.  Otherwise it returns, in the order of the
    directory and each joined to the directory, exactly the entries whose
    extension is ".jpg", ".jpeg" or ".tif" once lowered; in particular an
    entry "stem.e" is listed as soon as ".e" lowers to one of the three,
    whatever the case of its letters. *)
Theorem listImages_by_extension
    (ReadDir : string -> list string + error)
    (Join : string -> string -> string) (ToLower : string -> string)
    (d : string) :
  match ReadDir d with
  | inr e => listImages ReadDir Join ToLower d = ([], Some e)
  | inl files =>
      listImages ReadDir Join ToLower d =
      (map (Join d)
         (List.filter (fun name => image_ext (ToLower (Ext name))) files),
       None) /\
      (forall stem e,
         contains_char "." e = false -> contains_char "/" e = false ->
         In (String.append stem (String "." e)) files ->
         image_ext (ToLower (String "." e)) = true ->
         In (Join d (String.append stem (String "." e)))
            (fst (listImages ReadDir Join ToLower d)))
  end.
Proof.
  unfold listImages. destruct (ReadDir d) as [files|e]; [|reflexivity].
  rewrite listImages_loop. simpl. split; [reflexivity|].
  intros stem e Hdot Hsep Hin Himg. apply in_map.
  apply List.filter_In. split; [exact Hin|].
  rewrite (Ext_of_suffix stem e Hdot Hsep). exact Himg.
Qed.

Example listImages_directory :
  listImages
    (fun _ => inl ["DSCF6718.JPG"; "notes.txt"; "scan.Tif"; "raw.tiff";
                   "archive.tar.jpeg"; "jpg"; ".jpg"])
    join_slash lower_string "photos" =
  (["photos/DSCF6718.JPG"; "photos/scan.Tif"; "photos/archive.tar.jpeg";
    "photos/.jpg"], None).
Proof. reflexivity. Qed.

(** ** The layout as a whole *)

Lemma padding_id (indefinite a b : Z) (q : Q) :
  0 <= a <= Int64.max_int -> 0 <= b <= Int64.max_int -> (q == 0)%Q ->
  padding indefinite (bounds a b) (F64.Fin q) = bounds a b.
Proof.
  intros Ha Hb Hq. unfold padding, bounds.
  rewrite (Rect_origin a b) by lia. cbn [X Y Max].
  unfold F64.of_int. cbn [F64.mul F64.add].
  assert (E : forall z, (inject_Z z + inject_Z z * q == inject_Z z)%Q)
    by (intros z; rewrite Hq; ring).
  assert (T : forall z, 0 <= z <= Int64.max_int ->
            F64.to_int indefinite (F64.Fin (inject_Z z + inject_Z z * q)) = z).
  { intros z Hz. rewrite to_int_nonneg.
    - rewrite (Qfloor_comp _ _ (E z)). apply Qfloor_Z.
    - rewrite (E z). apply inject_Z_nonneg. lia.
    - rewrite (E z). rewrite <- Zle_Qle. lia. }
  rewrite (T a Ha), (T b Hb). apply Rect_origin; lia.
Qed.

(** Letterboxing: for a source wider than high, a factor f held by the
    processor with 1 <= f and h * f <= w, and no padding, the canvas is at
    the origin, has the width of the source and a height between that of
    the source and its width: w / f brought to an integer, between
    floor(w / f) and ceiling(w / f).  The source is placed at the left
    edge and between two horizontal bars, inside the canvas. *)
Theorem layout_letterbox (indefinite w h : Z) (f q : Q) (p : Processor) :
  0 < h < w -> w <= 2 ^ 53 ->
  (1 <= f)%Q -> F64.representable f ->
  (inject_Z h * f <= inject_Z w)%Q ->
  aspect_ratio p = F64.Fin f -> padding_frac p = F64.Fin q -> (q == 0)%Q ->
  let db := fst (layout indefinite p (bounds w h)) in
  let dr := snd (layout indefinite p (bounds w h)) in
  Min db = {| X := 0; Y := 0 |} /\
  X (Max db) = w /\ h <= Y (Max db) <= w /\
  Qfloor (inject_Z w / f) <= Y (Max db) <= Qceiling (inject_Z w / f) /\
  X (Min dr) = 0 /\ 0 <= Y (Min dr) /\ Y (Min dr) + h <= Y (Max db).
Proof.
  intros Hwh Hw Hf _ Hfit Ha Hp Hq db dr. subst db dr.
  assert (Hmax : 2 ^ 53 <= Int64.max_int) by (vm_compute; discriminate).
  assert (Hfpos : (0 < f)%Q) by lra.
  assert (Qw : (0 <= inject_Z w)%Q) by (apply inject_Z_nonneg; lia).
  assert (Hq1 : (inject_Z w / f <= inject_Z w)%Q).
  { apply Qle_shift_div_r; [exact Hfpos|].
    rewrite <- (Qmult_1_r (inject_Z w)) at 1.
    rewrite !(Qmult_comm (inject_Z w)).
    apply Qmult_le_compat_r; assumption. }
  assert (Hq2 : (inject_Z h <= inject_Z w / f)%Q)
    by (apply Qle_shift_div_l; assumption).
  pose proof (proj2 (le_Qfloor_iff h _) Hq2) as F1.
  assert (F2 : Qfloor (inject_Z w / f) <= w).
  { rewrite <- (Qfloor_Z w) at 2. apply Qfloor_resp_le. exact Hq1. }
  pose proof (Qfloor_le_ceiling (inject_Z w / f)) as Fc.
  assert (Hcanvas : aspect indefinite (bounds w h) (F64.Fin f) =
                    bounds w (Qfloor (inject_Z w / f))).
  { rewrite aspect_canvas; try lia; try assumption.
    - replace (h <? w) with true by (symmetry; apply Z.ltb_lt; lia).
      reflexivity.
    - unfold derived_extent.
      replace (h <? w) with true by (symmetry; apply Z.ltb_lt; lia).
      apply Qle_trans with (inject_Z w); [exact Hq1|].
      rewrite <- Zle_Qle. lia. }
  unfold layout. rewrite Ha, Hp, Hcanvas. cbn [fst snd].
  rewrite padding_id by (try assumption; lia).
  rewrite (centered_corners w h w (Qfloor (inject_Z w / f)))
    by (assert (2 ^ 53 <= 2 ^ 61) by (vm_compute; discriminate); lia).
  unfold bounds. rewrite Rect_origin by lia. cbn [X Y Min Max].
  rewrite !Z.quot_div_nonneg by lia.
  split; [reflexivity|]. split; [reflexivity|].
  Z.div_mod_to_equations. lia.
Qed.

Lemma layout_letterbox_witness :
  let db := fst (layout 0 wide_processor (bounds 1920 800)) in
  let dr := snd (layout 0 wide_processor (bounds 1920 800)) in
  X (Max db) = 1920 /\ 800 <= Y (Max db) <= 1920 /\
  X (Min dr) = 0 /\ Y (Min dr) + 800 <= Y (Max db).
Proof.
  intros db dr. subst db dr.
  destruct (layout_letterbox 0 1920 800 binary64_16_9 0 wide_processor)
    as (_ & Hx & Hy & _ & Hx0 & _ & Hin); try reflexivity.
  - lia.
  - vm_compute. discriminate.
  - vm_compute. discriminate.
  - exists 2001599834386887, (-50). split; [reflexivity|].
    split; [split; discriminate|]. reflexivity.
  - vm_compute. discriminate.
  - split; [exact Hx|]. split; [exact Hy|]. split; [exact Hx0 | exact Hin].
Defined.

(** Pillarboxing: for a source at least as high as wide, a factor f held
    by the processor with 1 <= f and h * f <= 2^53, and no padding, the
    canvas is at the origin, has the height of the source and a width of
    at least that of the source: h * f brought to an integer, between
    floor(h * f) and ceiling(h * f).  The source is placed at the top edge
    and between two vertical bars, inside the canvas. *)
Theorem layout_pillarbox (indefinite w h : Z) (f q : Q) (p : Processor) :
  0 < w <= h -> h <= 2 ^ 53 ->
  (1 <= f)%Q -> F64.representable f ->
  (inject_Z h * f <= inject_Z (2 ^ 53))%Q ->
  aspect_ratio p = F64.Fin f -> padding_frac p = F64.Fin q -> (q == 0)%Q ->
  let db := fst (layout indefinite p (bounds w h)) in
  let dr := snd (layout indefinite p (bounds w h)) in
  Min db = {| X := 0; Y := 0 |} /\
  Y (Max db) = h /\ w <= X (Max db) /\
  Qfloor (inject_Z h * f) <= X (Max db) <= Qceiling (inject_Z h * f) /\
  Y (Min dr) = 0 /\ 0 <= X (Min dr) /\ X (Min dr) + w <= X (Max db).
Proof.
  intros Hwh Hh Hf1 _ Hq2 Ha Hp Hq db dr. subst db dr.
  assert (Hmax : 2 ^ 53 <= Int64.max_int) by (vm_compute; discriminate).
  assert (H61 : 2 ^ 53 <= 2 ^ 61) by (vm_compute; discriminate).
  assert (Hfpos : (0 < f)%Q) by lra.
  assert (Qh : (0 <= inject_Z h)%Q) by (apply inject_Z_nonneg; lia).
  assert (Hq1 : (inject_Z h <= inject_Z h * f)%Q).
  { rewrite <- (Qmult_1_r (inject_Z h)) at 1.
    rewrite !(Qmult_comm (inject_Z h)).
    apply Qmult_le_compat_r; assumption. }
  pose proof (proj2 (le_Qfloor_iff h _) Hq1) as F1.
  assert (F2 : Qfloor (inject_Z h * f) <= 2 ^ 53).
  { rewrite <- (Qfloor_Z (2 ^ 53)). apply Qfloor_resp_le. exact Hq2. }
  pose proof (Qfloor_le_ceiling (inject_Z h * f)) as Fc.
  assert (Hcanvas : aspect indefinite (bounds w h) (F64.Fin f) =
                    bounds (Qfloor (inject_Z h * f)) h).
  { rewrite aspect_canvas; try lia; try assumption.
    - replace (h <? w) with false by (symmetry; apply Z.ltb_ge; lia).
      reflexivity.
    - unfold derived_extent.
      replace (h <? w) with false by (symmetry; apply Z.ltb_ge; lia).
      apply Qle_trans with (inject_Z (2 ^ 53)); [exact Hq2|].
      rewrite <- Zle_Qle. exact Hmax. }
  unfold layout. rewrite Ha, Hp, Hcanvas. cbn [fst snd].
  rewrite padding_id by (try assumption; lia).
  rewrite (centered_corners w h (Qfloor (inject_Z h * f)) h) by lia.
  unfold bounds. rewrite Rect_origin by lia. cbn [X Y Min Max].
  rewrite !Z.quot_div_nonneg by lia.
  split; [reflexivity|]. split; [reflexivity|].
  Z.div_mod_to_equations. lia.
Qed.

Lemma layout_pillarbox_witness :
  let db := fst (layout 0 wide_processor (bounds 900 1350)) in
  let dr := snd (layout 0 wide_processor (bounds 900 1350)) in
  Y (Max db) = 1350 /\ 900 <= X (Max db) /\
  Y (Min dr) = 0 /\ X (Min dr) + 900 <= X (Max db).
Proof.
  intros db dr. subst db dr.
  destruct (layout_pillarbox 0 900 1350 binary64_16_9 0 wide_processor)
    as (_ & Hy & Hx & _ & Hy0 & _ & Hin); try reflexivity.
  - lia.
  - vm_compute. discriminate.
  - vm_compute. discriminate.
  - exists 2001599834386887, (-50). split; [reflexivity|].
    split; [split; discriminate|]. reflexivity.
  - vm_compute. discriminate.
  - split; [exact Hy|]. split; [exact Hx|]. split; [exact Hy0 | exact Hin].
Defined.
